(** * VideoPacket framing: a shallow embedding of factory/video_packet.go

    The Go file holds one frame parser ([parseVideoPacketRequest]), two
    per-connection handlers built on it ([handleVideoPacketRequest] and
    [handleVideoPacketRaw]) and the dispatcher [New].  The parser pulls
    bytes from an [io.Reader]; here a reader is a state with a [Read]
    operation, the loops of the Go code are bounded by a fuel argument, and
    channel sends are recorded in a trace of events. *)

From Stdlib Require Import Bool String ZArith List Lia.
From Stdlib Require Import Strings.Byte.
Import ListNotations.

Local Open Scope Z_scope.

(** ** Bytes, buffers and errors *)

(** [int(b)] for a Go byte. *)
Definition u8 (b : byte) : Z := Z.of_N (Byte.to_N b).

(** [make([]byte, n)]: a zeroed buffer. *)
Definition make (n : nat) : list byte := repeat x00 n.

(** What a buffer holds after a reader copied [data] into its front:
    the bytes past the copied ones keep their old value. *)
Definition copyInto (buf data : list byte) : list byte :=
  let d := firstn (length buf) data in
  d ++ skipn (length d) buf.

(** The error values the code can meet: [io.EOF], [io.ErrUnexpectedEOF]
    (made by [io.ReadFull]) and any other reader error. *)
Inductive error : Type :=
| EOF
| ErrUnexpectedEOF
| ErrOther (code : nat).

(** [err == io.EOF] *)
Definition isEOF (e : error) : bool :=
  match e with EOF => true | _ => false end.

Definition wrap32 (z : Z) : Z := z mod 2 ^ 32.
Definition wrap64 (z : Z) : Z := z mod 2 ^ 64.

(** [binary.BigEndian.Uint32]:
    [uint32(b[3]) | uint32(b[2])<<8 | uint32(b[1])<<16 | uint32(b[0])<<24]. *)
Definition Uint32 (b : list byte) : Z :=
  Z.lor (Z.lor (Z.lor (u8 (nth 3 b x00))
                      (wrap32 (Z.shiftl (u8 (nth 2 b x00)) 8)))
               (wrap32 (Z.shiftl (u8 (nth 1 b x00)) 16)))
        (wrap32 (Z.shiftl (u8 (nth 0 b x00)) 24)).

(** ** Readers *)

(** One call [n, err := r.Read(p)]: the [n] bytes copied to the front of
    [p], the error, and the reader afterwards. *)
Record ReadResult (R : Type) : Type := mkRead {
  rr_data : list byte;
  rr_err : option error;
  rr_next : R
}.
Arguments mkRead {R} _ _ _.
Arguments rr_data {R} _.
Arguments rr_err {R} _.
Arguments rr_next {R} _.

(** The [io.Reader] interface; the second argument of [Read] is [len(p)]. *)
Class Reader (R : Type) : Type := {
  Read : R -> nat -> ReadResult R
}.

(** An in-memory reader over the bytes still to come, after Go's
    [bytes.Reader]: a read copies what is there, up to [len(p)] bytes, and
    fails, with [io.EOF] only, once nothing is left. *)
#[export] Instance BytesReader : Reader (list byte) := {
  Read s k :=
    match s with
    | [] => mkRead [] (Some EOF) []
    | _ => mkRead (firstn k s) None (skipn k s)
    end
}.

(** A reader that hands out a stream packet by packet, after the
    [tcpreader.ReaderStream] that [New] passes to the handlers (with its
    default settings, where no loss is reported): a read copies from the
    first non-empty packet only, so it is short whenever that packet has
    fewer bytes left than the buffer, and fails with [io.EOF] once no
    packet is left. *)
Definition packets : Type := list (list byte).

Fixpoint stripEmpty (ps : packets) : packets :=
  match ps with
  | [] :: ps => stripEmpty ps
  | _ => ps
  end.

#[export] Instance PacketReader : Reader packets := {
  Read ps k :=
    match stripEmpty ps with
    | [] => mkRead [] (Some EOF) []
    | p :: ps => mkRead (firstn k p) None (skipn k p :: ps)
    end
}.

(** A reader that follows a script of chunks of bytes and of errors, for
    readers that can report something else than [io.EOF] (a
    [tcpreader.ReaderStream] with loss errors switched on reports
    [DataLost], for instance): a read takes from the first chunk, or
    reports the error that is next in the script; at the end of the script
    it reports [io.EOF]. *)
Inductive scripted : Type :=
| Bytes (bs : list byte)
| Fails (e : error).

#[export] Instance ScriptReader : Reader (list scripted) := {
  Read sc k :=
    match sc with
    | [] => mkRead [] (Some EOF) []
    | Fails e :: sc => mkRead [] (Some e) sc
    | Bytes bs :: sc =>
        mkRead (firstn k bs) None
               (match skipn k bs with
                | [] => sc
                | rest => Bytes rest :: sc
                end)
    end
}.

(** A reader that never fails with anything but [io.EOF]. *)
Definition EOFOnly (R : Type) `{Reader R} : Prop :=
  forall (r : R) (k : nat) (e : error),
    rr_err (Read r k) = Some e -> e = EOF.

(** ** Control flow of one pass through the parser's outer loop *)

(** How one pass ends: [return reqData, nil], [return nil, err] or
    [continue]. *)
Inductive outcome (R : Type) : Type :=
| Frame (req : list byte) (r : R)
| Failed (e : error) (r : R)
| Again (r : R).
Arguments Frame {R} _ _.
Arguments Failed {R} _ _.
Arguments Again {R} _.

(** A step of the pass either goes on to the next statement with a value
    or leaves the pass. *)
Inductive flow (R A : Type) : Type :=
| Next (a : A)
| Exit (o : outcome R).
Arguments Next {R A} _.
Arguments Exit {R A} _.

Definition bind {R A B : Type} (c : flow R A) (k : A -> flow R B) : flow R B :=
  match c with
  | Next a => k a
  | Exit o => Exit o
  end.

Notation "' pat <- c ;; k" := (bind c (fun x => match x with pat => k end))
  (at level 61, pat pattern, c at next level, right associativity).

(** What a call of the parser returns: [(reqData, nil)] or [(nil, err)]. *)
Inductive result : Type :=
| Ok (req : list byte)
| Err (e : error).

Definition VideoPacketMaxBufferSize : nat := 4096.

(** [1024*1024*10] *)
Definition maxDataLength : Z := 1024 * 1024 * 10.

Section Parser.
Context {R : Type} `{Reader R}.

(** [r.Read(buf)] on a buffer: the buffer afterwards, the error, the
    reader afterwards.  The code never looks at the count. *)
Definition readInto (r : R) (buf : list byte) : list byte * option error * R :=
  let rr := Read r (length buf) in
  (copyInto buf (rr_data rr), rr_err rr, rr_next rr).

(** *** The header scan (the inner [for]) *)

Inductive scan : Type :=
| ScanEOF (r : R)
| ScanFound (proto : list byte) (r : R)
| ScanMore (proto : list byte) (r : R).

(** One iteration: the buffer [proto] lives across iterations. *)
Definition scanStep (proto : list byte) (r : R) : scan :=
  let '(proto, err, r) := readInto r proto in
  match err with
  | Some e => if isEOF e then ScanEOF r else ScanMore proto r
  | None => if u8 (nth 0 proto x00) =? 0x26 then ScanFound proto r
            else ScanMore proto r
  end.

Fixpoint scanHeader (fuel : nat) (proto : list byte) (r : R) : option scan :=
  match fuel with
  | O => None
  | S fuel =>
      match scanStep proto r with
      | ScanMore proto r => scanHeader fuel proto r
      | s => Some s
      end
  end.

(** *** The five reads after the header *)

Definition readLength (r : R) : flow R (list byte * Z * R) :=
  let '(length, err, r) := readInto r (make 4) in
  match err with
  | Some e => if isEOF e then Exit (Failed e r) else Next (length, 0, r)
  | None =>
      let dataLength := wrap64 (Uint32 length - 17) in
      if dataLength <? 0 then Exit (Again r)
      else Next (length, dataLength, r)
  end.

Definition readVersion (r : R) : flow R (list byte * R) :=
  let '(version, err, r) := readInto r (make 1) in
  match err with
  | Some e => if isEOF e then Exit (Failed e r) else Next (version, r)
  | None =>
      if negb (u8 (nth 0 version x00) =? 1) then Exit (Again r)
      else Next (version, r)
  end.

Definition readReserved (r : R) : flow R (list byte * R) :=
  let '(reserved, err, r) := readInto r (make 10) in
  match err with
  | Some e => if isEOF e then Exit (Failed e r) else Next (reserved, r)
  | None => Next (reserved, r)
  end.

Definition readData (dataLength : Z) (r : R) : flow R (list byte * R) :=
  if dataLength >? 0 then
    if dataLength >? maxDataLength then Exit (Again r)
    else
      let '(data, err, r) := readInto r (make (Z.to_nat dataLength)) in
      match err with
      | Some e => if isEOF e then Exit (Failed e r) else Next (data, r)
      | None => Next (data, r)
      end
  else Next ([], r).

Definition readTail (r : R) : flow R (list byte * R) :=
  let '(tail, err, r) := readInto r (make 1) in
  match err with
  | Some e => if isEOF e then Exit (Failed e r) else Next (tail, r)
  | None =>
      if negb (u8 (nth 0 tail x00) =? 0x28) then Exit (Again r)
      else Next (tail, r)
  end.

(** The body of the outer loop once the header byte is in [proto]. *)
Definition parseCandidate (proto : list byte) (r : R) : flow R (list byte * R) :=
  '(length, dataLength, r) <- readLength r ;;
  '(version, r) <- readVersion r ;;
  '(reserved, r) <- readReserved r ;;
  '(data, r) <- readData dataLength r ;;
  '(tail, r) <- readTail r ;;
  Next (proto ++ length ++ version ++ reserved ++ data ++ tail, r).

Definition candidate (proto : list byte) (r : R) : outcome R :=
  match parseCandidate proto r with
  | Next (reqData, r) => Frame reqData r
  | Exit o => o
  end.

(** *** The parser *)

(** [None] is a call that did not return within [fuel] loop iterations. *)
Fixpoint parseVideoPacketRequest (fuel : nat) (r : R) : option (result * R) :=
  match fuel with
  | O => None
  | S fuel =>
      match scanHeader fuel (make 1) r with
      | None => None
      | Some (ScanMore _ _) => None
      | Some (ScanEOF r) => Some (Err EOF, r)
      | Some (ScanFound proto r) =>
          match candidate proto r with
          | Frame reqData r => Some (Ok reqData, r)
          | Failed e r => Some (Err e, r)
          | Again r => parseVideoPacketRequest fuel r
          end
      end
  end.

End Parser.

(** ** The handlers and the dispatcher *)

(** What a connection task does to the outside, in order. *)
Inductive event : Type :=
| QueueSend (req : list byte)              (* f.d.C <- req *)
| NewSender (conns : Z) (addr : string)    (* deliver.NewLongConnSender(ctx, conns, addr) *)
| SenderSend (buf : list byte)             (* sender.Data() <- buf *)
| Cancel.                                  (* the deferred cancel() *)

(** The events that belong to the raw handler's sender and its scope. *)
Definition isSenderEvent (e : event) : bool :=
  match e with
  | QueueSend _ => false
  | NewSender _ _ | SenderSend _ | Cancel => true
  end.

(** Modelled from the spec: the fields of [deliver.Config] that this file
    reads; package [deliver] is not among the sources.  The mode is one
    process-wide value, the sender is obtained from a connection-cloning
    factor and a remote address. *)
Record Config : Type := mkConfig {
  Mode : Z;
  Clone : Z;
  RemoteAddr : string
}.

(** Go's [int] addition on a 64-bit platform. *)
Definition wrapInt (z : Z) : Z := (z + 2 ^ 63) mod 2 ^ 64 - 2 ^ 63.

(** The goroutine [New] starts for a stream. *)
Inductive task (R : Type) : Type :=
| GoRaw (r : R)
| GoRequest (r : R).
Arguments GoRaw {R} _.
Arguments GoRequest {R} _.

Section Handlers.
Context {R : Type} `{Reader R}.

(** The constant [deliver.ModeRaw] and the outcome of
    [deliver.NewLongConnSender] ([None] is a sender, [Some err] a failure)
    are taken as parameters: package [deliver] is not among the sources. *)
Variable ModeRaw : Z.
Variable NewLongConnSender : Z -> string -> option error.

(** The handlers run until the parser fails; a handler's value is the
    events so far and whether the task has returned ([false]: it was
    still running when [fuel] ran out). *)
Fixpoint handleVideoPacketRequest (fuel : nat) (r : R) : list event * bool :=
  match fuel with
  | O => ([], false)
  | S fuel =>
      match parseVideoPacketRequest fuel r with
      | None => ([], false)
      | Some (Err _, _) => ([], true)
      | Some (Ok req, r) =>
          let '(evs, returned) := handleVideoPacketRequest fuel r in
          (QueueSend req :: evs, returned)
      end
  end.

(** The loop of [io.ReadAtLeast(r, buf, len(buf))]:
    [for n < min && err == nil { nn, err = r.Read(buf[n:]); n += nn }]. *)
Fixpoint readAtLeast (fuel : nat) (r : R) (buf : list byte) (n : nat)
  : option (nat * option error * list byte * R) :=
  match fuel with
  | O => None
  | S fuel =>
      if (n <? length buf)%nat then
        let rr := Read r (length buf - n) in
        let d := firstn (length buf - n) (rr_data rr) in
        let buf' := firstn n buf ++ copyInto (skipn n buf) d in
        let n' := (n + length d)%nat in
        match rr_err rr with
        | None => readAtLeast fuel (rr_next rr) buf' n'
        | Some e => Some (n', Some e, buf', rr_next rr)
        end
      else Some (n, None, buf, r)
  end.

(** [io.ReadFull]: no error once the buffer is full, and [io.EOF] after
    some bytes becomes [io.ErrUnexpectedEOF]. *)
Definition ReadFull (fuel : nat) (r : R) (buf : list byte)
  : option (nat * option error * list byte * R) :=
  match readAtLeast fuel r buf 0 with
  | None => None
  | Some (n, err, buf, r) =>
      let err :=
        if (length buf <=? n)%nat then None
        else match err with
             | Some e => if (0 <? n)%nat && isEOF e
                         then Some ErrUnexpectedEOF else Some e
             | None => None
             end in
      Some (n, err, buf, r)
  end.

(** The inner loop of the raw handler: whole buffers go to the sender
    until a read fails.  The reader is [None] when [fuel] ran out. *)
Fixpoint rawChunks (fuel : nat) (r : R) : list event * option R :=
  match fuel with
  | O => ([], None)
  | S fuel =>
      match ReadFull fuel r (make VideoPacketMaxBufferSize) with
      | None => ([], None)
      | Some (n, Some _, buf, r) =>
          (if (0 <? n)%nat then [SenderSend buf] else [], Some r)
      | Some (_, None, buf, r) =>
          let '(evs, r) := rawChunks fuel r in
          (SenderSend buf :: evs, r)
      end
  end.

(** The outer loop of the raw handler. *)
Fixpoint rawLoop (fuel : nat) (r : R) : list event * bool :=
  match fuel with
  | O => ([], false)
  | S fuel =>
      match parseVideoPacketRequest fuel r with
      | None => ([], false)
      | Some (Err _, _) => ([], true)
      | Some (Ok req, r) =>
          match rawChunks fuel r with
          | (chunks, None) => (SenderSend req :: chunks, false)
          | (chunks, Some r) =>
              let '(evs, returned) := rawLoop fuel r in
              (SenderSend req :: chunks ++ evs, returned)
          end
      end
  end.

Definition handleVideoPacketRaw (cfg : Config) (fuel : nat) (r : R)
  : list event * bool :=
  let conns := wrapInt (Clone cfg + 1) in
  match NewLongConnSender conns (RemoteAddr cfg) with
  | Some _ => ([NewSender conns (RemoteAddr cfg); Cancel], true)
  | None =>
      let '(evs, returned) := rawLoop fuel r in
      (NewSender conns (RemoteAddr cfg) :: evs ++ (if returned then [Cancel] else []),
       returned)
  end.

(** [New]: the stream counter goes up by one and one task is started,
    chosen by the mode. *)
Definition New (cfg : Config) (videoPacketStreamCount : Z) (s : R) : Z * task R :=
  let n := wrap64 (videoPacketStreamCount + 1) in
  if Mode cfg =? ModeRaw then (n, GoRaw s) else (n, GoRequest s).

(** The trace of a started task. *)
Definition runTask (cfg : Config) (fuel : nat) (t : task R) : list event * bool :=
  match t with
  | GoRaw r => handleVideoPacketRaw cfg fuel r
  | GoRequest r => handleVideoPacketRequest fuel r
  end.

End Handlers.

(** ** Frames and successive calls *)

(** A valid frame, by its bytes: header [0x26], version [1] at offset 5,
    tail [0x28], a payload length (the length field minus 17) within
    [0, 10 MiB], and 17 bytes around the payload. *)
Definition validFrame (f : list byte) : Prop :=
  nth 0 f x00 = x26 /\
  nth 5 f x00 = x01 /\
  last f x00 = x28 /\
  let payloadLength := Uint32 (firstn 4 (skipn 1 f)) - 17 in
  0 <= payloadLength <= maxDataLength /\
  Z.of_nat (length f) = 17 + payloadLength.

(** [n] calls of the parser, one after the other, on one reader. *)
Fixpoint parseCalls {R : Type} `{Reader R} (fuel n : nat) (r : R)
  : option (list result * R) :=
  match n with
  | O => Some ([], r)
  | S n =>
      match parseVideoPacketRequest fuel r with
      | None => None
      | Some (res, r) =>
          match parseCalls fuel n r with
          | None => None
          | Some (rs, r) => Some (res :: rs, r)
          end
      end
  end.

(** The frame with an empty payload:
    [0x26 00 00 00 11 01 <10 zero bytes> 0x28]. *)
Definition minimalFrame : list byte :=
  [x26; x00; x00; x00; x11; x01] ++ repeat x00 10 ++ [x28].

(** A frame with the two payload bytes [0x41 0x26]. *)
Definition payloadFrame : list byte :=
  [x26; x00; x00; x00; x13; x01] ++ repeat x00 10 ++ [x41; x26] ++ [x28].

(** A frame with an empty payload whose last reserved byte is [0x26]. *)
Definition markerInReservedFrame : list byte :=
  [x26; x00; x00; x00; x11; x01] ++ repeat x00 9 ++ [x26] ++ [x28].

(** The minimal frame with its length field lowered to 16. *)
Definition shortLengthFrame : list byte :=
  [x26; x00; x00; x00; x10; x01] ++ repeat x00 10 ++ [x28].

(** The minimal frame with its tail byte replaced by [0x29]. *)
Definition badTailFrame : list byte :=
  [x26; x00; x00; x00; x11; x01] ++ repeat x00 10 ++ [x29].

(** An outcome that is not a frame and surfaces no error but [io.EOF]. *)
Definition rejected {R : Type} (o : outcome R) : Prop :=
  match o with
  | Frame _ _ => False
  | Failed e _ => e = EOF
  | Again _ => True
  end.

(** Where a step of a pass leaves the reader: [Some] reader unless the
    step returned an error. *)
Definition readerAfter {R A : Type} (c : flow R (A * R)) : option R :=
  match c with
  | Next (_, r) => Some r
  | Exit (Again r) => Some r
  | Exit _ => None
  end.

Definition smaller {R : Type} (size : R -> nat) (strict : bool) (r : R)
    (o : option R) : Prop :=
  match o with
  | Some r' => if strict then (size r' < size r)%nat
               else (size r' <= size r)%nat
  | None => True
  end.

(** A reader over a finite stream, with no error but the end of the
    stream: a read into a non-empty buffer either reports [io.EOF] or
    succeeds and leaves less of the stream, as measured by [size]. *)
Definition Finite {R : Type} `{Reader R} (size : R -> nat) : Prop :=
  forall (r : R) (k : nat), (0 < k)%nat ->
    rr_err (Read r k) = Some EOF \/
    (rr_err (Read r k) = None /\ (size (rr_next (Read r k)) < size r)%nat).

(** A reader that copies nothing when it reports [io.EOF], and whose
    stream is no longer afterwards. *)
Definition QuietEOF {R : Type} `{Reader R} (size : R -> nat) : Prop :=
  forall (r : R) (k : nat),
    rr_err (Read r k) = Some EOF ->
    rr_data (Read r k) = [] /\ (size (rr_next (Read r k)) <= size r)%nat.

(** * Properties *)

(** ** Bytes and buffers *)

Lemma u8_range (b : byte) : 0 <= u8 b <= 255.
Proof.
  unfold u8. pose proof (Byte.to_N_bounded b). lia.
Qed.

Lemma u8_inj (a b : byte) : u8 a = u8 b -> a = b.
Proof.
  unfold u8. intros E. apply N2Z.inj in E.
  pose proof (Byte.of_to_N a) as Ha. pose proof (Byte.of_to_N b) as Hb.
  rewrite E in Ha. congruence.
Qed.

Lemma lor_below (n a b : Z) :
  0 < n -> 0 <= a < 2 ^ n -> 0 <= b < 2 ^ n -> 0 <= Z.lor a b < 2 ^ n.
Proof.
  intros Hn Ha Hb.
  assert (H0 : 0 <= Z.lor a b) by (apply Z.lor_nonneg; lia).
  split; [exact H0|].
  destruct (Z.eq_dec (Z.lor a b) 0) as [E|E]; [lia|].
  apply Z.log2_lt_pow2; [lia|].
  rewrite Z.log2_lor by lia.
  apply Z.max_lub_lt.
  - destruct (Z.eq_dec a 0) as [->|]; [simpl; lia|]. apply Z.log2_lt_pow2; lia.
  - destruct (Z.eq_dec b 0) as [->|]; [simpl; lia|]. apply Z.log2_lt_pow2; lia.
Qed.

Lemma shifted_below (x k : Z) :
  0 <= x <= 255 -> 0 <= k <= 24 -> 0 <= wrap32 (Z.shiftl x k) < 2 ^ 32.
Proof.
  intros Hx Hk. unfold wrap32. apply Z.mod_pos_bound. lia.
Qed.

Lemma Uint32_range (b : list byte) : 0 <= Uint32 b < 2 ^ 32.
Proof.
  unfold Uint32.
  repeat apply lor_below; try lia;
    try (apply shifted_below; [apply u8_range | lia]).
  pose proof (u8_range (nth 3 b x00)). lia.
Qed.

Lemma copyInto_length (buf data : list byte) :
  length (copyInto buf data) = length buf.
Proof.
  unfold copyInto. rewrite length_app, length_skipn, length_firstn. lia.
Qed.

Lemma isEOF_true (e : error) : isEOF e = true -> e = EOF.
Proof. destruct e; simpl; congruence. Qed.

Lemma make_length (n : nat) : length (make n) = n.
Proof. apply repeat_length. Qed.

Lemma wrap64_nonneg (z : Z) : 0 <= wrap64 z.
Proof. unfold wrap64. apply Z.mod_pos_bound. lia. Qed.

(** The payload length as the code computes it: the subtraction wraps for
    a length field under 17 and is exact otherwise. *)
Lemma dataLength_cases (b : list byte) :
  (Uint32 b < 17 /\ wrap64 (Uint32 b - 17) = Uint32 b - 17 + 2 ^ 64) \/
  (17 <= Uint32 b /\ wrap64 (Uint32 b - 17) = Uint32 b - 17).
Proof.
  pose proof (Uint32_range b) as Hb. unfold wrap64.
  destruct (Z_lt_ge_dec (Uint32 b) 17) as [Hlt|Hge]; [left|right]; split; try lia.
  - symmetry. apply Z.mod_unique with (q := -1); lia.
  - apply Z.mod_small. lia.
Qed.

(** ** The steps of one pass, for any reader *)

Section ParserFacts.
Context {R : Type} `{Reader R}.

Lemma readLength_Next r len dl r' :
  readLength r = Next (len, dl, r') ->
  length len = 4%nat /\ r' = rr_next (Read r 4) /\
  len = copyInto (make 4) (rr_data (Read r 4)) /\
  ((rr_err (Read r 4) = None /\ dl = wrap64 (Uint32 len - 17)) \/
   (exists e, rr_err (Read r 4) = Some e /\ isEOF e = false /\ dl = 0)).
Proof.
  unfold readLength, readInto. rewrite make_length. cbv beta iota zeta.
  destruct (rr_err (Read r 4)) as [e|] eqn:E.
  - destruct (isEOF e) eqn:Ee; [discriminate|].
    intros [= <- <- <-]. rewrite copyInto_length, make_length.
    repeat split; auto. right. exists e. auto.
  - destruct (_ <? 0); [discriminate|].
    intros [= <- <- <-]. rewrite copyInto_length, make_length.
    repeat split; auto.
Qed.

Lemma readLength_Exit r o :
  readLength r = Exit o ->
  rr_err (Read r 4) = Some EOF /\ o = Failed EOF (rr_next (Read r 4)).
Proof.
  unfold readLength, readInto. rewrite make_length. cbv beta iota zeta.
  destruct (rr_err (Read r 4)) as [e|] eqn:E.
  - destruct (isEOF e) eqn:Ee; [|discriminate].
    apply isEOF_true in Ee. subst e. intros [= <-]. auto.
  - destruct (_ <? 0) eqn:Hneg; [|discriminate].
    apply Z.ltb_lt in Hneg. pose proof (wrap64_nonneg (Uint32 (copyInto (make 4) (rr_data (Read r 4))) - 17)). lia.
Qed.

Lemma readVersion_Next r version r' :
  readVersion r = Next (version, r') ->
  length version = 1%nat /\ r' = rr_next (Read r 1) /\
  ((rr_err (Read r 1) = None /\ nth 0 version x00 = x01) \/
   (exists e, rr_err (Read r 1) = Some e /\ isEOF e = false)).
Proof.
  unfold readVersion, readInto. rewrite make_length. cbv beta iota zeta.
  destruct (rr_err (Read r 1)) as [e|] eqn:E.
  - destruct (isEOF e) eqn:Ee; [discriminate|].
    intros [= <- <-]. rewrite copyInto_length, make_length.
    repeat split; auto. right. exists e. auto.
  - destruct (_ =? 1) eqn:Hv; [|discriminate].
    intros [= <- <-]. rewrite copyInto_length, make_length.
    apply Z.eqb_eq in Hv. repeat split; auto. left. split; auto.
    apply u8_inj. exact Hv.
Qed.

Lemma readVersion_Exit r o :
  readVersion r = Exit o ->
  (rr_err (Read r 1) = Some EOF /\ o = Failed EOF (rr_next (Read r 1))) \/
  (rr_err (Read r 1) = None /\ o = Again (rr_next (Read r 1)) /\
   nth 0 (copyInto (make 1) (rr_data (Read r 1))) x00 <> x01).
Proof.
  unfold readVersion, readInto. rewrite make_length. cbv beta iota zeta.
  destruct (rr_err (Read r 1)) as [e|] eqn:E.
  - destruct (isEOF e) eqn:Ee; [|discriminate].
    apply isEOF_true in Ee. subst e. intros [= <-]. auto.
  - destruct (_ =? 1) eqn:Hv; [discriminate|].
    intros [= <-]. right. repeat split; auto.
    intros Hx. rewrite Hx in Hv. discriminate.
Qed.

Lemma readReserved_Next r reserved r' :
  readReserved r = Next (reserved, r') ->
  length reserved = 10%nat /\ r' = rr_next (Read r 10).
Proof.
  unfold readReserved, readInto. rewrite make_length. cbv beta iota zeta.
  destruct (rr_err (Read r 10)) as [e|] eqn:E.
  - destruct (isEOF e); [discriminate|].
    intros [= <- <-]. rewrite copyInto_length, make_length. auto.
  - intros [= <- <-]. rewrite copyInto_length, make_length. auto.
Qed.

Lemma readReserved_Exit r o :
  readReserved r = Exit o ->
  rr_err (Read r 10) = Some EOF /\ o = Failed EOF (rr_next (Read r 10)).
Proof.
  unfold readReserved, readInto. rewrite make_length. cbv beta iota zeta.
  destruct (rr_err (Read r 10)) as [e|] eqn:E; [|discriminate].
  destruct (isEOF e) eqn:Ee; [|discriminate].
  apply isEOF_true in Ee. subst e. intros [= <-]. auto.
Qed.

Lemma readData_Next dataLength r data r' :
  0 <= dataLength ->
  readData dataLength r = Next (data, r') ->
  dataLength <= maxDataLength /\ Z.of_nat (length data) = dataLength.
Proof.
  intros Hpos. unfold readData, readInto. rewrite make_length.
  cbv beta iota zeta.
  destruct (dataLength >? 0) eqn:H0.
  - destruct (dataLength >? maxDataLength) eqn:Hmax; [discriminate|].
    assert (Hle : dataLength <= maxDataLength)
      by (rewrite Z.gtb_ltb in Hmax; apply Z.ltb_ge in Hmax; exact Hmax).
    destruct (rr_err _) as [e|]; [destruct (isEOF e); [discriminate|]|];
      intros [= <- <-]; rewrite copyInto_length, make_length; lia.
  - intros [= <- <-]. rewrite Z.gtb_ltb in H0. apply Z.ltb_ge in H0.
    unfold maxDataLength. simpl length. lia.
Qed.

Lemma readData_Exit dataLength r o :
  readData dataLength r = Exit o ->
  (maxDataLength < dataLength /\ o = Again r) \/
  (0 < dataLength <= maxDataLength /\
   rr_err (Read r (Z.to_nat dataLength)) = Some EOF /\
   o = Failed EOF (rr_next (Read r (Z.to_nat dataLength)))).
Proof.
  unfold readData, readInto. rewrite make_length. cbv beta iota zeta.
  destruct (dataLength >? 0) eqn:H0; [|discriminate].
  rewrite Z.gtb_ltb in H0. apply Z.ltb_lt in H0.
  destruct (dataLength >? maxDataLength) eqn:Hmax;
    rewrite Z.gtb_ltb in Hmax.
  - apply Z.ltb_lt in Hmax. intros [= <-]. auto.
  - apply Z.ltb_ge in Hmax.
    destruct (rr_err _) as [e|] eqn:E; [|discriminate].
    destruct (isEOF e) eqn:Ee; [|discriminate].
    apply isEOF_true in Ee. subst e. intros [= <-]. right. auto.
Qed.

Lemma readTail_Next r tail r' :
  readTail r = Next (tail, r') ->
  length tail = 1%nat /\ r' = rr_next (Read r 1) /\
  ((rr_err (Read r 1) = None /\ nth 0 tail x00 = x28) \/
   (exists e, rr_err (Read r 1) = Some e /\ isEOF e = false)).
Proof.
  unfold readTail, readInto. rewrite make_length. cbv beta iota zeta.
  destruct (rr_err (Read r 1)) as [e|] eqn:E.
  - destruct (isEOF e) eqn:Ee; [discriminate|].
    intros [= <- <-]. rewrite copyInto_length, make_length.
    repeat split; auto. right. exists e. auto.
  - destruct (_ =? 40) eqn:Hv; [|discriminate].
    intros [= <- <-]. rewrite copyInto_length, make_length.
    apply Z.eqb_eq in Hv. repeat split; auto. left. split; auto.
    apply u8_inj. exact Hv.
Qed.

Lemma readTail_Exit r o :
  readTail r = Exit o ->
  (rr_err (Read r 1) = Some EOF /\ o = Failed EOF (rr_next (Read r 1))) \/
  (rr_err (Read r 1) = None /\ o = Again (rr_next (Read r 1)) /\
   nth 0 (copyInto (make 1) (rr_data (Read r 1))) x00 <> x28).
Proof.
  unfold readTail, readInto. rewrite make_length. cbv beta iota zeta.
  destruct (rr_err (Read r 1)) as [e|] eqn:E.
  - destruct (isEOF e) eqn:Ee; [|discriminate].
    apply isEOF_true in Ee. subst e. intros [= <-]. auto.
  - destruct (_ =? 40) eqn:Hv; [discriminate|].
    intros [= <-]. right. repeat split; auto.
    intros Hx. rewrite Hx in Hv. discriminate.
Qed.

(** *** The header scan *)

Lemma scanStep_cases proto r :
  let rr := Read r (length proto) in
  let proto' := copyInto proto (rr_data rr) in
  (rr_err rr = Some EOF /\ scanStep proto r = ScanEOF (rr_next rr)) \/
  (rr_err rr = None /\ nth 0 proto' x00 = x26 /\
   scanStep proto r = ScanFound proto' (rr_next rr)) \/
  ((rr_err rr = None /\ nth 0 proto' x00 <> x26 \/
    exists e, rr_err rr = Some e /\ isEOF e = false) /\
   scanStep proto r = ScanMore proto' (rr_next rr)).
Proof.
  unfold scanStep, readInto. cbv beta iota zeta.
  destruct (rr_err (Read r (length proto))) as [e|] eqn:E.
  - destruct (isEOF e) eqn:Ee.
    + apply isEOF_true in Ee. subst e. auto.
    + right. right. split; auto. right. exists e. auto.
  - destruct (_ =? 38) eqn:Hv.
    + apply Z.eqb_eq in Hv. right. left. repeat split; auto.
      apply u8_inj. exact Hv.
    + right. right. split; auto. left. split; auto.
      intros Hx. rewrite Hx in Hv. discriminate.
Qed.

Lemma scanHeader_result fuel : forall proto r s,
  scanHeader fuel proto r = Some s ->
  (exists r', s = ScanEOF r') \/
  (exists proto' r', s = ScanFound proto' r' /\
     length proto' = length proto /\ nth 0 proto' x00 = x26).
Proof.
  induction fuel as [|fuel IH]; intros proto r s; [discriminate|].
  cbn [scanHeader].
  destruct (scanStep_cases proto r) as [(_ & ->)|[(_ & Hb & ->)|(_ & ->)]].
  - intros [= <-]. eauto.
  - intros [= <-]. right. do 2 eexists. split; [reflexivity|].
    split; [apply copyInto_length | exact Hb].
  - intros Hs. apply IH in Hs. rewrite copyInto_length in Hs. exact Hs.
Qed.

(** *** One candidate *)

Lemma candidate_Frame_inv proto r f r' :
  candidate proto r = Frame f r' ->
  exists len dataLength version reserved data tail r1 r2 r3 r4,
    readLength r = Next (len, dataLength, r1) /\
    readVersion r1 = Next (version, r2) /\
    readReserved r2 = Next (reserved, r3) /\
    readData dataLength r3 = Next (data, r4) /\
    readTail r4 = Next (tail, r') /\
    f = proto ++ len ++ version ++ reserved ++ data ++ tail.
Proof.
  unfold candidate, parseCandidate.
  destruct (readLength r) as [[[len dl] r1]|o1] eqn:E1; cbn [bind];
    [|intros ->; apply readLength_Exit in E1; destruct E1; discriminate].
  destruct (readVersion r1) as [[version r2]|o2] eqn:E2; cbn [bind];
    [|intros ->; apply readVersion_Exit in E2;
      destruct E2 as [(_ & ?)|(_ & ? & _)]; discriminate].
  destruct (readReserved r2) as [[reserved r3]|o3] eqn:E3; cbn [bind];
    [|intros ->; apply readReserved_Exit in E3; destruct E3; discriminate].
  destruct (readData dl r3) as [[data r4]|o4] eqn:E4; cbn [bind];
    [|intros ->; apply readData_Exit in E4;
      destruct E4 as [(_ & ?)|(_ & _ & ?)]; discriminate].
  destruct (readTail r4) as [[tail r5]|o5] eqn:E5; cbn [bind];
    [|intros ->; apply readTail_Exit in E5;
      destruct E5 as [(_ & ?)|(_ & ? & _)]; discriminate].
  intros [= <- <-]. do 10 eexists. repeat split; eassumption.
Qed.

(** No pass surfaces an error other than [io.EOF]. *)
Lemma candidate_Failed proto r e r' :
  candidate proto r = Failed e r' -> e = EOF.
Proof.
  unfold candidate, parseCandidate.
  destruct (readLength r) as [[[len dl] r1]|o1] eqn:E1; cbn [bind];
    [|intros ->; apply readLength_Exit in E1; destruct E1; congruence].
  destruct (readVersion r1) as [[version r2]|o2] eqn:E2; cbn [bind];
    [|intros ->; apply readVersion_Exit in E2;
      destruct E2 as [(_ & ?)|(_ & ? & _)]; congruence].
  destruct (readReserved r2) as [[reserved r3]|o3] eqn:E3; cbn [bind];
    [|intros ->; apply readReserved_Exit in E3; destruct E3; congruence].
  destruct (readData dl r3) as [[data r4]|o4] eqn:E4; cbn [bind];
    [|intros ->; apply readData_Exit in E4;
      destruct E4 as [(_ & ?)|(_ & _ & ?)]; congruence].
  destruct (readTail r4) as [[tail r5]|o5] eqn:E5; cbn [bind];
    [|intros ->; apply readTail_Exit in E5;
      destruct E5 as [(_ & ?)|(_ & ? & _)]; congruence].
  discriminate.
Qed.

Lemma parse_Err_EOF fuel : forall r e r',
  parseVideoPacketRequest fuel r = Some (Err e, r') -> e = EOF.
Proof.
  induction fuel as [|fuel IH]; intros r e r'; [discriminate|].
  cbn [parseVideoPacketRequest].
  destruct (scanHeader fuel (make 1) r) as [[r1|proto r1|proto r1]|];
    try discriminate.
  - intros [= <- _]. reflexivity.
  - destruct (candidate proto r1) as [f r2|e2 r2|r2] eqn:Ec.
    + discriminate.
    + intros [= <- _]. eapply candidate_Failed. exact Ec.
    + apply IH.
Qed.
End ParserFacts.

(** *** The layout of a returned buffer *)

Lemma frame_layout (proto len version reserved data tail : list byte) :
  length proto = 1%nat -> length len = 4%nat -> length version = 1%nat ->
  length reserved = 10%nat -> length tail = 1%nat ->
  let f := proto ++ len ++ version ++ reserved ++ data ++ tail in
  nth 0 f x00 = nth 0 proto x00 /\
  firstn 4 (skipn 1 f) = len /\
  nth 5 f x00 = nth 0 version x00 /\
  last f x00 = nth 0 tail x00 /\
  length f = (17 + length data)%nat.
Proof.
  intros Hp Hl Hv Hr Ht.
  destruct proto as [|p [|? ?]]; try discriminate.
  destruct len as [|l0 [|l1 [|l2 [|l3 [|? ?]]]]]; try discriminate.
  destruct version as [|v [|? ?]]; try discriminate.
  destruct tail as [|t [|? ?]]; try discriminate.
  cbv zeta. repeat split; try reflexivity.
  - cbn [app]. rewrite !app_comm_cons, !app_assoc. apply last_last.
  - rewrite !length_app, Hr. simpl. lia.
Qed.

Section ParserFactsEOF.
Context {R : Type} `{Reader R}.
Hypothesis eof_only : EOFOnly R.

Lemma candidate_Frame_valid proto r f r' :
  length proto = 1%nat -> nth 0 proto x00 = x26 ->
  candidate proto r = Frame f r' -> validFrame f.
Proof.
  intros Hp Hp0 Hc.
  apply candidate_Frame_inv in Hc.
  destruct Hc as (len & dl & version & reserved & data & tail & r1 & r2 & r3 & r4
                  & E1 & E2 & E3 & E4 & E5 & ->).
  apply readLength_Next in E1. destruct E1 as (Hl & _ & _ & [(_ & Hdl)|(e & He & Hne & _)]);
    [|apply eof_only in He; subst e; discriminate].
  apply readVersion_Next in E2. destruct E2 as (Hv & _ & [(_ & Hv0)|(e & He & Hne)]);
    [|apply eof_only in He; subst e; discriminate].
  apply readReserved_Next in E3. destruct E3 as (Hr & _).
  apply readData_Next in E4; [|subst dl; apply wrap64_nonneg].
  destruct E4 as (Hmax & Hd).
  apply readTail_Next in E5. destruct E5 as (Ht & _ & [(_ & Ht0)|(e & He & Hne)]);
    [|apply eof_only in He; subst e; discriminate].
  destruct (frame_layout proto len version reserved data tail Hp Hl Hv Hr Ht)
    as (F0 & F1 & F5 & Fl & Fn).
  unfold validFrame. rewrite F0, F1, F5, Fl, Fn.
  repeat split; try assumption; try congruence.
  - destruct (dataLength_cases len) as [(Hlt & Hw)|(Hge & Hw)]; [|lia].
    pose proof (Uint32_range len). unfold maxDataLength in *. lia.
  - destruct (dataLength_cases len) as [(Hlt & Hw)|(Hge & Hw)]; [|lia].
    pose proof (Uint32_range len). unfold maxDataLength in *. lia.
  - destruct (dataLength_cases len) as [(Hlt & Hw)|(Hge & Hw)]; [|lia].
    pose proof (Uint32_range len). unfold maxDataLength in *. lia.
Qed.

Lemma parse_Ok_valid fuel : forall r f r',
  parseVideoPacketRequest fuel r = Some (Ok f, r') -> validFrame f.
Proof.
  induction fuel as [|fuel IH]; intros r f r'; [discriminate|].
  cbn [parseVideoPacketRequest].
  destruct (scanHeader fuel (make 1) r) as [s|] eqn:Es; [|discriminate].
  apply scanHeader_result in Es.
  destruct Es as [(r1 & ->)|(proto & r1 & -> & Hp & Hp0)]; [discriminate|].
  rewrite make_length in Hp.
  destruct (candidate proto r1) as [f2 r2|e2 r2|r2] eqn:Ec.
  - intros [= <- _]. eapply candidate_Frame_valid; eassumption.
  - discriminate.
  - apply IH.
Qed.
End ParserFactsEOF.

(** ** Fuel *)

Section Fuel.
Context {R : Type} `{Reader R}.

Lemma scanHeader_mono fuel : forall fuel' proto r s,
  scanHeader fuel proto r = Some s -> (fuel <= fuel')%nat ->
  scanHeader fuel' proto r = Some s.
Proof.
  induction fuel as [|fuel IH]; intros fuel' proto r s; [discriminate|].
  intros Hs Hle. destruct fuel' as [|fuel']; [lia|].
  cbn [scanHeader] in *.
  destruct (scanStep proto r); try exact Hs.
  apply IH; [exact Hs | lia].
Qed.

Lemma parse_mono fuel : forall fuel' r x,
  parseVideoPacketRequest fuel r = Some x -> (fuel <= fuel')%nat ->
  parseVideoPacketRequest fuel' r = Some x.
Proof.
  induction fuel as [|fuel IH]; intros fuel' r x; [discriminate|].
  intros Hp Hle. destruct fuel' as [|fuel']; [lia|].
  cbn [parseVideoPacketRequest] in *.
  destruct (scanHeader fuel (make 1) r) as [s|] eqn:Es; [|discriminate].
  rewrite (scanHeader_mono fuel fuel' _ _ _ Es) by lia.
  destruct s as [r1|proto r1|proto r1]; try exact Hp.
  destruct (candidate proto r1); try exact Hp.
  apply IH; [exact Hp | lia].
Qed.
Lemma parse_deterministic (fuel1 fuel2 : nat) (r : R) x y :
  parseVideoPacketRequest fuel1 r = Some x ->
  parseVideoPacketRequest fuel2 r = Some y -> x = y.
Proof.
  intros H1 H2.
  apply parse_mono with (fuel' := Nat.max fuel1 fuel2) in H1; [|lia].
  apply parse_mono with (fuel' := Nat.max fuel1 fuel2) in H2; [|lia].
  congruence.
Qed.

Lemma parseCalls_mono (n : nat) :
  forall (fuel fuel' : nat) (r : R) x,
    parseCalls fuel n r = Some x -> (fuel <= fuel')%nat ->
    parseCalls fuel' n r = Some x.
Proof.
  induction n as [|n IH]; intros fuel fuel' r x; cbn [parseCalls]; [auto|].
  destruct (parseVideoPacketRequest fuel r) as [[res r1]|] eqn:Ep; [|discriminate].
  destruct (parseCalls fuel n r1) as [[rs r2]|] eqn:Ec; [|discriminate].
  intros Hx Hle.
  rewrite (parse_mono fuel fuel' r _ Ep Hle).
  rewrite (IH fuel fuel' r1 _ Ec Hle). exact Hx.
Qed.
End Fuel.

(** ** The in-memory reader *)

Lemma BytesReader_EOFOnly : EOFOnly (list byte).
Proof.
  intros s k e. destruct s; simpl; congruence.
Qed.

Lemma copyInto_make (l : list byte) : copyInto (make (length l)) l = l.
Proof.
  unfold copyInto. rewrite make_length, firstn_all.
  rewrite skipn_all2 by (rewrite make_length; lia).
  apply app_nil_r.
Qed.

Lemma readInto_bytes (l rest : list byte) :
  l <> [] -> readInto (l ++ rest) (make (length l)) = (l, None, rest).
Proof.
  intros Hl. unfold readInto. rewrite make_length.
  destruct l as [|b l]; [congruence|].
  change (Read ((b :: l) ++ rest) (length (b :: l)))
    with (mkRead (firstn (length (b :: l)) ((b :: l) ++ rest)) None
                 (skipn (length (b :: l)) ((b :: l) ++ rest))).
  cbn [rr_data rr_err rr_next].
  rewrite firstn_app, firstn_all, Nat.sub_diag, firstn_O, app_nil_r.
  rewrite skipn_app, skipn_all, Nat.sub_diag, skipn_O.
  rewrite copyInto_make. reflexivity.
Qed.

Lemma readLength_bytes (len rest : list byte) :
  length len = 4%nat ->
  readLength (len ++ rest) = Next (len, wrap64 (Uint32 len - 17), rest).
Proof.
  intros Hl. unfold readLength. rewrite <- Hl.
  rewrite readInto_bytes by (destruct len; [discriminate|congruence]).
  pose proof (wrap64_nonneg (Uint32 len - 17)) as Hw.
  apply Z.ltb_ge in Hw. rewrite Hw. reflexivity.
Qed.

Lemma readVersion_bytes (v : byte) (rest : list byte) :
  readVersion (v :: rest) =
  if u8 v =? 1 then Next ([v], rest) else Exit (Again rest).
Proof.
  unfold readVersion.
  change (readInto (v :: rest) (make 1))
    with (readInto ([v] ++ rest) (make (length [v]))).
  rewrite readInto_bytes by congruence.
  cbn [nth]. destruct (u8 v =? 1); reflexivity.
Qed.

Lemma readReserved_bytes (reserved rest : list byte) :
  length reserved = 10%nat ->
  readReserved (reserved ++ rest) = Next (reserved, rest).
Proof.
  intros Hl. unfold readReserved. rewrite <- Hl.
  rewrite readInto_bytes by (destruct reserved; [discriminate|congruence]).
  reflexivity.
Qed.

Lemma readData_bytes (data rest : list byte) :
  Z.of_nat (length data) <= maxDataLength ->
  readData (Z.of_nat (length data)) (data ++ rest) = Next (data, rest).
Proof.
  intros Hmax. unfold readData.
  destruct data as [|b data].
  - reflexivity.
  - replace (Z.of_nat (length (b :: data)) >? 0) with true
      by (symmetry; rewrite Z.gtb_ltb; apply Z.ltb_lt; simpl length; lia).
    replace (Z.of_nat (length (b :: data)) >? maxDataLength) with false
      by (symmetry; rewrite Z.gtb_ltb; apply Z.ltb_ge; exact Hmax).
    rewrite Nat2Z.id. rewrite readInto_bytes by congruence. reflexivity.
Qed.

Lemma readTail_bytes (t : byte) (rest : list byte) :
  readTail (t :: rest) =
  if u8 t =? 0x28 then Next ([t], rest) else Exit (Again rest).
Proof.
  unfold readTail.
  change (readInto (t :: rest) (make 1))
    with (readInto ([t] ++ rest) (make (length [t]))).
  rewrite readInto_bytes by congruence.
  cbn [nth]. destruct (u8 t =? 40); reflexivity.
Qed.

(** A well-formed candidate on the in-memory reader: everything up to the
    tail byte is accepted, and the tail byte decides. *)
Lemma candidate_bytes (proto len reserved data : list byte) (t : byte) (rest : list byte) :
  length len = 4%nat -> length reserved = 10%nat ->
  Uint32 len = 17 + Z.of_nat (length data) ->
  Z.of_nat (length data) <= maxDataLength ->
  candidate proto (len ++ x01 :: reserved ++ data ++ t :: rest) =
  if u8 t =? 0x28
  then Frame (proto ++ len ++ [x01] ++ reserved ++ data ++ [t]) rest
  else Again rest.
Proof.
  intros Hl Hr HU Hmax. unfold candidate, parseCandidate.
  rewrite readLength_bytes by exact Hl. cbn [bind].
  rewrite readVersion_bytes. change (u8 x01 =? 1) with true. cbv iota. cbn [bind].
  rewrite readReserved_bytes by exact Hr. cbn [bind].
  replace (wrap64 (Uint32 len - 17)) with (Z.of_nat (length data)).
  2:{ unfold wrap64. rewrite HU.
      replace (17 + Z.of_nat (length data) - 17) with (Z.of_nat (length data)) by lia.
      symmetry. apply Z.mod_small. unfold maxDataLength in Hmax. lia. }
  rewrite readData_bytes by exact Hmax. cbn [bind].
  rewrite readTail_bytes. destruct (u8 t =? 40); reflexivity.
Qed.

Lemma scanStep_bytes (p b : byte) (rest : list byte) :
  scanStep [p] (b :: rest) =
  if u8 b =? 0x26 then ScanFound [b] rest else ScanMore [b] rest.
Proof. reflexivity. Qed.

(** ** Valid frames *)

(** A valid frame, taken apart into its fields. *)
Lemma validFrame_fields (f : list byte) :
  validFrame f ->
  exists len reserved data,
    f = [x26] ++ len ++ [x01] ++ reserved ++ data ++ [x28] /\
    length len = 4%nat /\ length reserved = 10%nat /\
    Uint32 len = 17 + Z.of_nat (length data) /\
    Z.of_nat (length data) <= maxDataLength.
Proof.
  intros (H0 & H5 & Hlast & Hrange & Hlen).
  set (len := firstn 4 (skipn 1 f)) in *.
  assert (Hf : (17 <= length f)%nat) by lia.
  assert (Hsplit : f = firstn 1 f ++ len ++ firstn 1 (skipn 5 f)
                       ++ firstn 10 (skipn 6 f) ++ skipn 16 f).
  { subst len.
    rewrite <- (firstn_skipn 1 f) at 1. f_equal.
    rewrite <- (firstn_skipn 4 (skipn 1 f)) at 1. f_equal.
    rewrite skipn_skipn. cbn [Nat.add].
    rewrite <- (firstn_skipn 1 (skipn 5 f)) at 1. f_equal.
    rewrite skipn_skipn. cbn [Nat.add].
    rewrite <- (firstn_skipn 10 (skipn 6 f)) at 1. f_equal.
    rewrite skipn_skipn. reflexivity. }
  assert (Hne : skipn 16 f <> []).
  { intros E. apply (f_equal (@length byte)) in E.
    rewrite length_skipn in E. simpl in E. lia. }
  destruct (exists_last Hne) as (data & t & Hdt).
  exists len, (firstn 10 (skipn 6 f)), data.
  assert (Hl4 : length len = 4%nat)
    by (subst len; rewrite length_firstn, length_skipn; lia).
  assert (Hl10 : length (firstn 10 (skipn 6 f)) = 10%nat)
    by (rewrite length_firstn, length_skipn; lia).
  assert (Hdata : length f = (17 + length data)%nat).
  { apply (f_equal (@length byte)) in Hdt.
    rewrite length_skipn, length_app in Hdt. simpl in Hdt. lia. }
  assert (Ht : t = x28).
  { rewrite Hsplit, Hdt in Hlast. rewrite !app_assoc in Hlast.
    rewrite last_last in Hlast. exact Hlast. }
  assert (Hh : firstn 1 f = [x26]).
  { destruct f as [|b f']; [simpl in Hf; lia|]. simpl in H0. subst b. reflexivity. }
  assert (Hv : firstn 1 (skipn 5 f) = [x01]).
  { destruct f as [|b0 [|b1 [|b2 [|b3 [|b4 [|b5 f']]]]]]; simpl in Hf; try lia.
    simpl in H5. subst b5. reflexivity. }
  repeat split; try assumption; try lia.
  rewrite Hsplit at 1. rewrite Hh, Hv, Hdt, Ht. reflexivity.
Qed.

(** One call on a stream that starts with a valid frame returns the frame
    and leaves the reader just behind it. *)
Lemma parse_valid_frame (f rest : list byte) (fuel : nat) :
  validFrame f ->
  parseVideoPacketRequest (S (S fuel)) (f ++ rest) = Some (Ok f, rest).
Proof.
  intros Hf. apply validFrame_fields in Hf.
  destruct Hf as (len & reserved & data & -> & Hl & Hr & HU & Hmax).
  cbn [parseVideoPacketRequest scanHeader].
  change (([x26] ++ len ++ [x01] ++ reserved ++ data ++ [x28]) ++ rest)
    with (x26 :: ((len ++ x01 :: reserved ++ data ++ [x28]) ++ rest)).
  change (make 1) with [x00].
  rewrite scanStep_bytes. change (u8 x26 =? 38) with true. cbv iota.
  replace ((len ++ x01 :: reserved ++ data ++ [x28]) ++ rest)
    with (len ++ x01 :: reserved ++ data ++ x28 :: rest)
    by (rewrite <- !app_assoc; cbn [app]; rewrite <- !app_assoc; reflexivity).
  rewrite candidate_bytes by assumption.
  change (u8 x28 =? 40) with true. cbv iota. reflexivity.
Qed.

Lemma minimalFrame_valid : validFrame minimalFrame.
Proof.
  unfold validFrame. repeat split; try reflexivity; vm_compute; discriminate.
Qed.

Lemma payloadFrame_valid : validFrame payloadFrame.
Proof.
  unfold validFrame. repeat split; try reflexivity; vm_compute; discriminate.
Qed.

Lemma parse_nil (fuel : nat) :
  parseVideoPacketRequest (S (S fuel)) (@nil byte) = Some (Err EOF, []).
Proof. reflexivity. Qed.

(** ** Rejection and resumption, for any reader *)

Section Rejection.
Context {R : Type} `{Reader R}.

(** Inside a call, a rejected candidate hands the reader to the next
    pass of the same call. *)
Lemma parse_resumes (fuel : nat) (r0 r r' : R) (proto : list byte) :
  scanHeader fuel (make 1) r0 = Some (ScanFound proto r) ->
  candidate proto r = Again r' ->
  parseVideoPacketRequest (S fuel) r0 = parseVideoPacketRequest fuel r'.
Proof.
  intros Hs Hc. cbn [parseVideoPacketRequest]. rewrite Hs, Hc. reflexivity.
Qed.

(** An end-of-stream found by the header scan or by a candidate ends the
    call with that error. *)
Lemma parse_scan_EOF (fuel : nat) (r0 r : R) :
  scanHeader fuel (make 1) r0 = Some (ScanEOF r) ->
  parseVideoPacketRequest (S fuel) r0 = Some (Err EOF, r).
Proof.
  intros Hs. cbn [parseVideoPacketRequest]. rewrite Hs. reflexivity.
Qed.

Lemma parse_candidate_Failed (fuel : nat) (r0 r r' : R) (proto : list byte) (e : error) :
  scanHeader fuel (make 1) r0 = Some (ScanFound proto r) ->
  candidate proto r = Failed e r' ->
  parseVideoPacketRequest (S fuel) r0 = Some (Err e, r').
Proof.
  intros Hs Hc. cbn [parseVideoPacketRequest]. rewrite Hs, Hc. reflexivity.
Qed.

Lemma scanHeader_EOF (fuel : nat) (proto : list byte) (r : R) :
  rr_err (Read r (length proto)) = Some EOF ->
  scanHeader (S fuel) proto r = Some (ScanEOF (rr_next (Read r (length proto)))).
Proof.
  intros He. cbn [scanHeader].
  destruct (scanStep_cases proto r) as [(_ & ->)|[(Hn & _)|([(Hn & _)|(e & Hn & Hne)] & _)]];
    try reflexivity; try congruence.
  rewrite He in Hn. injection Hn as <-. discriminate.
Qed.

Lemma scanHeader_skips (fuel : nat) (proto : list byte) (r : R) :
  rr_err (Read r (length proto)) = None ->
  nth 0 (copyInto proto (rr_data (Read r (length proto)))) x00 <> x26 ->
  scanHeader (S fuel) proto r
  = scanHeader fuel (copyInto proto (rr_data (Read r (length proto))))
               (rr_next (Read r (length proto))).
Proof.
  intros He Hb. cbn [scanHeader].
  destruct (scanStep_cases proto r) as [(Hn & _)|[(_ & Hn & _)|(_ & ->)]];
    try reflexivity; congruence.
Qed.

Lemma readLength_EOF (r : R) :
  rr_err (Read r 4) = Some EOF ->
  readLength r = Exit (Failed EOF (rr_next (Read r 4))).
Proof.
  intros He. unfold readLength, readInto. rewrite make_length.
  cbv beta iota zeta. rewrite He. reflexivity.
Qed.

Lemma readVersion_EOF (r : R) :
  rr_err (Read r 1) = Some EOF ->
  readVersion r = Exit (Failed EOF (rr_next (Read r 1))).
Proof.
  intros He. unfold readVersion, readInto. rewrite make_length.
  cbv beta iota zeta. rewrite He. reflexivity.
Qed.

Lemma readReserved_EOF (r : R) :
  rr_err (Read r 10) = Some EOF ->
  readReserved r = Exit (Failed EOF (rr_next (Read r 10))).
Proof.
  intros He. unfold readReserved, readInto. rewrite make_length.
  cbv beta iota zeta. rewrite He. reflexivity.
Qed.

Lemma readData_EOF (dataLength : Z) (r : R) :
  0 < dataLength <= maxDataLength ->
  rr_err (Read r (Z.to_nat dataLength)) = Some EOF ->
  readData dataLength r = Exit (Failed EOF (rr_next (Read r (Z.to_nat dataLength)))).
Proof.
  intros Hd He. unfold readData, readInto. rewrite make_length.
  replace (dataLength >? 0) with true
    by (symmetry; rewrite Z.gtb_ltb; apply Z.ltb_lt; lia).
  replace (dataLength >? maxDataLength) with false
    by (symmetry; rewrite Z.gtb_ltb; apply Z.ltb_ge; lia).
  cbv beta iota zeta. rewrite He. reflexivity.
Qed.

Lemma readTail_EOF (r : R) :
  rr_err (Read r 1) = Some EOF ->
  readTail r = Exit (Failed EOF (rr_next (Read r 1))).
Proof.
  intros He. unfold readTail, readInto. rewrite make_length.
  cbv beta iota zeta. rewrite He. reflexivity.
Qed.

Lemma readVersion_wrong (r : R) :
  rr_err (Read r 1) = None ->
  nth 0 (copyInto (make 1) (rr_data (Read r 1))) x00 <> x01 ->
  readVersion r = Exit (Again (rr_next (Read r 1))).
Proof.
  intros He Hb. unfold readVersion, readInto. rewrite make_length.
  cbv beta iota zeta. rewrite He.
  destruct (_ =? 1) eqn:Hv; [|reflexivity].
  apply Z.eqb_eq in Hv. apply (u8_inj _ x01) in Hv. contradiction.
Qed.

Lemma readTail_wrong (r : R) :
  rr_err (Read r 1) = None ->
  nth 0 (copyInto (make 1) (rr_data (Read r 1))) x00 <> x28 ->
  readTail r = Exit (Again (rr_next (Read r 1))).
Proof.
  intros He Hb. unfold readTail, readInto. rewrite make_length.
  cbv beta iota zeta. rewrite He.
  destruct (_ =? 40) eqn:Hv; [|reflexivity].
  apply Z.eqb_eq in Hv. apply (u8_inj _ x28) in Hv. contradiction.
Qed.

Lemma readData_oversized (dataLength : Z) (r : R) :
  maxDataLength < dataLength -> readData dataLength r = Exit (Again r).
Proof.
  intros Hd. unfold readData.
  replace (dataLength >? 0) with true
    by (symmetry; rewrite Z.gtb_ltb; apply Z.ltb_lt; unfold maxDataLength in Hd; lia).
  replace (dataLength >? maxDataLength) with true
    by (symmetry; rewrite Z.gtb_ltb; apply Z.ltb_lt; lia).
  reflexivity.
Qed.

(** The length read never rejects by itself: with no error it hands on
    the wrapped difference as the payload length. *)
Lemma readLength_read (r : R) :
  rr_err (Read r 4) = None ->
  readLength r =
  Next (copyInto (make 4) (rr_data (Read r 4)),
        wrap64 (Uint32 (copyInto (make 4) (rr_data (Read r 4))) - 17),
        rr_next (Read r 4)).
Proof.
  intros He. unfold readLength, readInto. rewrite make_length.
  cbv beta iota zeta. rewrite He.
  pose proof (wrap64_nonneg (Uint32 (copyInto (make 4) (rr_data (Read r 4))) - 17)) as Hw.
  apply Z.ltb_ge in Hw. rewrite Hw. reflexivity.
Qed.

(** A length field under 17 or over 17 + 10 MiB gives a computed payload
    length over 10 MiB. *)
Lemma dataLength_out_of_range (b : list byte) :
  Uint32 b < 17 \/ Uint32 b - 17 > maxDataLength ->
  maxDataLength < wrap64 (Uint32 b - 17).
Proof.
  intros Hb. pose proof (Uint32_range b) as Hr.
  destruct (dataLength_cases b) as [(Hlt & ->)|(Hge & ->)];
    unfold maxDataLength in *; lia.
Qed.

Lemma candidate_out_of_range (proto : list byte) (r : R) :
  rr_err (Read r 4) = None ->
  (let length := copyInto (make 4) (rr_data (Read r 4)) in
   Uint32 length < 17 \/ Uint32 length - 17 > maxDataLength) ->
  rejected (candidate proto r).
Proof.
  cbv zeta. intros He Hb. apply dataLength_out_of_range in Hb.
  unfold candidate, parseCandidate.
  rewrite (readLength_read r He). cbn [bind].
  destruct (readVersion _) as [[version r2]|o2] eqn:E2; cbn [bind].
  2:{ apply readVersion_Exit in E2.
      destruct E2 as [(_ & ->)|(_ & -> & _)]; simpl; auto. }
  destruct (readReserved r2) as [[reserved r3]|o3] eqn:E3; cbn [bind].
  2:{ apply readReserved_Exit in E3. destruct E3 as (_ & ->). reflexivity. }
  rewrite readData_oversized by exact Hb. exact I.
Qed.

(** What the five reads of a pass do with an end-of-stream and with a
    malformed field, in the order of the code. *)
Lemma candidate_cases (proto : list byte) (r : R) :
  (rr_err (Read r 4) = Some EOF ->
   candidate proto r = Failed EOF (rr_next (Read r 4))) /\
  (forall len dataLength r1,
     readLength r = Next (len, dataLength, r1) ->
     (rr_err (Read r1 1) = Some EOF ->
      candidate proto r = Failed EOF (rr_next (Read r1 1))) /\
     (rr_err (Read r1 1) = None ->
      nth 0 (copyInto (make 1) (rr_data (Read r1 1))) x00 <> x01 ->
      candidate proto r = Again (rr_next (Read r1 1))) /\
     (forall version r2,
        readVersion r1 = Next (version, r2) ->
        (rr_err (Read r2 10) = Some EOF ->
         candidate proto r = Failed EOF (rr_next (Read r2 10))) /\
        (forall reserved r3,
           readReserved r2 = Next (reserved, r3) ->
           (maxDataLength < dataLength -> candidate proto r = Again r3) /\
           (0 < dataLength <= maxDataLength ->
            rr_err (Read r3 (Z.to_nat dataLength)) = Some EOF ->
            candidate proto r
            = Failed EOF (rr_next (Read r3 (Z.to_nat dataLength)))) /\
           (forall data r4,
              readData dataLength r3 = Next (data, r4) ->
              (rr_err (Read r4 1) = Some EOF ->
               candidate proto r = Failed EOF (rr_next (Read r4 1))) /\
              (rr_err (Read r4 1) = None ->
               nth 0 (copyInto (make 1) (rr_data (Read r4 1))) x00 <> x28 ->
               candidate proto r = Again (rr_next (Read r4 1))))))).
Proof.
  unfold candidate, parseCandidate.
  split; [intros He; rewrite (readLength_EOF r He); reflexivity|].
  intros len dl r1 ->. cbn [bind].
  split; [intros He; rewrite (readVersion_EOF r1 He); reflexivity|].
  split; [intros He Hb; rewrite (readVersion_wrong r1 He Hb); reflexivity|].
  intros version r2 ->. cbn [bind].
  split; [intros He; rewrite (readReserved_EOF r2 He); reflexivity|].
  intros reserved r3 ->. cbn [bind].
  split; [intros Hd; rewrite (readData_oversized dl r3 Hd); reflexivity|].
  split; [intros Hd He; rewrite (readData_EOF dl r3 Hd He); reflexivity|].
  intros data r4 ->. cbn [bind].
  split; [intros He; rewrite (readTail_EOF r4 He); reflexivity|].
  intros He Hb. rewrite (readTail_wrong r4 He Hb). reflexivity.
Qed.
End Rejection.

Lemma Read_cons (b : byte) (s : list byte) (k : nat) :
  Read (b :: s) k = mkRead (firstn k (b :: s)) None (skipn k (b :: s)).
Proof. reflexivity. Qed.

Lemma Read_nil (k : nat) : Read (@nil byte) k = mkRead [] (Some EOF) [].
Proof. reflexivity. Qed.

(** ** Progress and termination on finite streams *)

Section Termination.
Context {R : Type} `{Reader R}.
Variable size : R -> nat.
Hypothesis finite : Finite size.

Lemma readLength_progress (r : R) :
  smaller size true r (readerAfter (readLength r)).
Proof.
  unfold readLength, readInto. rewrite make_length. cbv beta iota zeta.
  destruct (finite r 4%nat ltac:(lia)) as [E|(E & Hlt)]; rewrite E; [exact I|].
  destruct (_ <? 0); exact Hlt.
Qed.

Lemma readVersion_progress (r : R) :
  smaller size false r (readerAfter (readVersion r)).
Proof.
  unfold readVersion, readInto. rewrite make_length. cbv beta iota zeta.
  destruct (finite r 1%nat ltac:(lia)) as [E|(E & Hlt)]; rewrite E; [exact I|].
  destruct (negb _); cbn [readerAfter smaller]; lia.
Qed.

Lemma readReserved_progress (r : R) :
  smaller size false r (readerAfter (readReserved r)).
Proof.
  unfold readReserved, readInto. rewrite make_length. cbv beta iota zeta.
  destruct (finite r 10%nat ltac:(lia)) as [E|(E & Hlt)]; rewrite E; [exact I|].
  cbn [readerAfter smaller]. lia.
Qed.

Lemma readData_progress (dataLength : Z) (r : R) :
  smaller size false r (readerAfter (readData dataLength r)).
Proof.
  unfold readData, readInto. rewrite make_length.
  destruct (dataLength >? 0) eqn:H0; [|cbn [readerAfter smaller]; lia].
  destruct (dataLength >? maxDataLength); [cbn [readerAfter smaller]; lia|].
  rewrite Z.gtb_ltb in H0. apply Z.ltb_lt in H0. cbv beta iota zeta.
  destruct (finite r (Z.to_nat dataLength) ltac:(lia)) as [E|(E & Hlt)];
    rewrite E; [exact I|].
  cbn [readerAfter smaller]. lia.
Qed.

Lemma readTail_progress (r : R) :
  smaller size false r (readerAfter (readTail r)).
Proof.
  unfold readTail, readInto. rewrite make_length. cbv beta iota zeta.
  destruct (finite r 1%nat ltac:(lia)) as [E|(E & Hlt)]; rewrite E; [exact I|].
  destruct (negb _); cbn [readerAfter smaller]; lia.
Qed.

(** A pass that does not return an error leaves less than it found. *)
Lemma candidate_progress (proto : list byte) (r : R) :
  match candidate proto r with
  | Frame _ r' => (size r' < size r)%nat
  | Failed e _ => e = EOF
  | Again r' => (size r' < size r)%nat
  end.
Proof.
  unfold candidate, parseCandidate.
  pose proof (readLength_progress r) as L1.
  destruct (readLength r) as [[[len dl] r1]|o1] eqn:E1; cbn [bind].
  2:{ apply readLength_Exit in E1. destruct E1 as (_ & ->). reflexivity. }
  pose proof (readVersion_progress r1) as L2.
  destruct (readVersion r1) as [[version r2]|o2] eqn:E2; cbn [bind].
  2:{ apply readVersion_Exit in E2.
      destruct E2 as [(_ & ->)|(_ & -> & _)]; [reflexivity|].
      cbn [readerAfter smaller] in L1, L2. lia. }
  pose proof (readReserved_progress r2) as L3.
  destruct (readReserved r2) as [[reserved r3]|o3] eqn:E3; cbn [bind].
  2:{ apply readReserved_Exit in E3. destruct E3 as (_ & ->). reflexivity. }
  pose proof (readData_progress dl r3) as L4.
  destruct (readData dl r3) as [[data r4]|o4] eqn:E4; cbn [bind].
  2:{ apply readData_Exit in E4.
      destruct E4 as [(_ & ->)|(_ & _ & ->)]; [|reflexivity].
      cbn [readerAfter smaller] in L1, L2, L3. lia. }
  pose proof (readTail_progress r4) as L5.
  destruct (readTail r4) as [[tail r5]|o5] eqn:E5; cbn [bind].
  2:{ apply readTail_Exit in E5.
      destruct E5 as [(_ & ->)|(_ & -> & _)]; [reflexivity|].
      cbn [readerAfter smaller] in L1, L2, L3, L4, L5. lia. }
  cbn [readerAfter smaller] in L1, L2, L3, L4, L5. lia.
Qed.

(** An iteration of the header scan returns or takes something. *)
Lemma scanStep_progress (proto : list byte) (r : R) :
  proto <> [] ->
  match scanStep proto r with
  | ScanEOF _ => True
  | ScanFound _ r' | ScanMore _ r' => (size r' < size r)%nat
  end.
Proof.
  intros Hp.
  assert (Hk : (0 < length proto)%nat)
    by (destruct proto; [congruence | simpl; lia]).
  unfold scanStep, readInto. cbv beta iota zeta.
  destruct (finite r (length proto) Hk) as [E|(E & Hlt)]; rewrite E; [exact I|].
  destruct (_ =? 38); exact Hlt.
Qed.

Lemma scanHeader_total (fuel : nat) : forall (proto : list byte) (r : R),
  proto <> [] -> (size r < fuel)%nat ->
  (exists r', scanHeader fuel proto r = Some (ScanEOF r')) \/
  (exists proto' r', scanHeader fuel proto r = Some (ScanFound proto' r') /\
                     (size r' < size r)%nat).
Proof.
  induction fuel as [|fuel IH]; intros proto r Hp Hf; [lia|].
  cbn [scanHeader]. pose proof (scanStep_progress proto r Hp) as Hs.
  pose proof (copyInto_length proto (rr_data (Read r (length proto)))) as Hl.
  destruct (scanStep_cases proto r) as [(_ & E)|[(_ & _ & E)|(_ & E)]];
    rewrite E in Hs |- *.
  - left. eauto.
  - right. eauto.
  - destruct (IH (copyInto proto (rr_data (Read r (length proto))))
                 (rr_next (Read r (length proto)))) as [(r' & E')|(p' & r' & E' & Hlt)].
    + intros E0. rewrite E0 in Hl. destruct proto; [congruence | discriminate].
    + lia.
    + left. eauto.
    + right. exists p', r'. split; [exact E' | lia].
Qed.

Lemma parse_total (fuel : nat) : forall (r : R),
  (size r + 2 <= fuel)%nat ->
  exists res r', parseVideoPacketRequest fuel r = Some (res, r').
Proof.
  induction fuel as [|fuel IH]; intros r Hf; [lia|].
  cbn [parseVideoPacketRequest].
  destruct (scanHeader_total fuel (make 1) r) as [(r1 & ->)|(proto & r1 & -> & Hl)];
    [discriminate | lia | |].
  - eauto.
  - pose proof (candidate_progress proto r1) as Hc.
    destruct (candidate proto r1) as [f r2|e r2|r2]; eauto.
    apply IH. lia.
Qed.
End Termination.

Lemma BytesReader_Finite : Finite (@length byte).
Proof.
  intros s k Hk. destruct s as [|b s]; [left; reflexivity|].
  right. rewrite Read_cons. cbn [rr_err rr_next].
  split; [reflexivity|]. rewrite length_skipn. simpl length. lia.
Qed.

(** The packets of a stream are read one at a time. *)
Lemma PacketReader_Finite : Finite (fun ps : packets => length (concat ps)).
Proof.
  intros ps k Hk. cbn [Read PacketReader].
  induction ps as [|p ps IH]; [left; reflexivity|].
  destruct p as [|b p]; [exact IH|].
  right. cbn [stripEmpty rr_err rr_next]. split; [reflexivity|].
  cbn [concat]. rewrite !length_app, length_skipn. simpl length. lia.
Qed.

Lemma PacketReader_EOFOnly : EOFOnly packets.
Proof.
  intros ps k e. cbn [Read PacketReader].
  destruct (stripEmpty ps); cbn [rr_err]; congruence.
Qed.

(** ** Resynchronisation on the in-memory reader *)

(** Bytes other than [0x26] in front of a header byte are skipped. *)
Lemma scanHeader_garbage (g : list byte) : forall (p : byte) (rest : list byte) (fuel : nat),
  Forall (fun b => b <> x26) g ->
  scanHeader (length g + S fuel) [p] (g ++ x26 :: rest)
  = Some (ScanFound [x26] rest).
Proof.
  induction g as [|b g IH]; intros p rest fuel Hg.
  - reflexivity.
  - inversion Hg as [|? ? Hb Hg']; subst.
    cbn [length Nat.add app scanHeader]. rewrite scanStep_bytes.
    destruct (u8 b =? 38) eqn:Eb.
    + apply Z.eqb_eq in Eb. apply (u8_inj b x26) in Eb. contradiction.
    + apply IH. exact Hg'.
Qed.

Lemma parse_garbage_then_frame (g f rest : list byte) (fuel : nat) :
  Forall (fun b => b <> x26) g -> validFrame f ->
  parseVideoPacketRequest (S (length g + S fuel)) (g ++ f ++ rest)
  = Some (Ok f, rest).
Proof.
  intros Hg Hf. apply validFrame_fields in Hf.
  destruct Hf as (len & reserved & data & -> & Hl & Hr & HU & Hmax).
  cbn [parseVideoPacketRequest]. change (make 1) with [x00].
  replace (g ++ ([x26] ++ len ++ [x01] ++ reserved ++ data ++ [x28]) ++ rest)
    with (g ++ x26 :: (len ++ x01 :: reserved ++ data ++ x28 :: rest))
    by (cbn [app]; rewrite <- !app_assoc; cbn [app]; rewrite <- !app_assoc;
        reflexivity).
  rewrite scanHeader_garbage by exact Hg.
  rewrite candidate_bytes by assumption.
  change (u8 x28 =? 40) with true. reflexivity.
Qed.

Lemma parseCalls_nil (fuel n : nat) : forall results r',
  parseCalls fuel n (@nil byte) = Some (results, r') ->
  Forall (fun res => res = Err EOF) results.
Proof.
  induction n as [|n IH]; intros results r'; cbn [parseCalls].
  - intros [= <- _]. constructor.
  - destruct (parseVideoPacketRequest fuel []) as [[res s1]|] eqn:Ep; [|discriminate].
    assert (Hx : (res, s1) = (Err EOF, []))
      by (eapply parse_deterministic; [exact Ep | exact (parse_nil 0)]).
    injection Hx as -> ->.
    destruct (parseCalls fuel n []) as [[rs s2]|] eqn:Ec; [|discriminate].
    intros [= <- _]. constructor; [reflexivity | eapply IH; reflexivity].
Qed.

(** Once a call has used up the stream with the end-of-stream error, no
    call returns anything else. *)
Lemma parseCalls_all_EOF (s : list byte) (fuel0 : nat) :
  parseVideoPacketRequest fuel0 s = Some (Err EOF, []) ->
  forall fuel n results r',
    parseCalls fuel n s = Some (results, r') ->
    Forall (fun res => res = Err EOF) results.
Proof.
  intros H0 fuel n results r' Hc.
  destruct n as [|n]; cbn [parseCalls] in Hc.
  - injection Hc as <- _. constructor.
  - destruct (parseVideoPacketRequest fuel s) as [[res s1]|] eqn:Ep; [|discriminate].
    assert (Hx : (res, s1) = (Err EOF, []))
      by (eapply parse_deterministic; [exact Ep | exact H0]).
    injection Hx as -> ->.
    destruct (parseCalls fuel n []) as [[rs s2]|] eqn:Ec; [|discriminate].
    injection Hc as <- _. constructor; [reflexivity|].
    eapply parseCalls_nil. exact Ec.
Qed.

(** ** The handlers *)

Section HandlerFacts.
Context {R : Type} `{Reader R}.
Variable NewLongConnSender : Z -> string -> option error.

(** The discrete handler sends to the queue the frames that successive
    calls of the parser return, and does nothing else. *)
Lemma handleVideoPacketRequest_trace (fuel : nat) : forall (r : R),
  exists frames r',
    parseCalls fuel (length frames) r = Some (map Ok frames, r') /\
    fst (handleVideoPacketRequest fuel r) = map QueueSend frames /\
    (snd (handleVideoPacketRequest fuel r) = true ->
     exists e r'', parseVideoPacketRequest fuel r' = Some (Err e, r'')).
Proof.
  induction fuel as [|fuel IH]; intros r.
  - exists [], r. repeat split. discriminate.
  - cbn [handleVideoPacketRequest].
    destruct (parseVideoPacketRequest fuel r) as [[[req|e] r1]|] eqn:Ep.
    + destruct (IH r1) as (frames & r' & Hc & Ht & Hd).
      destruct (handleVideoPacketRequest fuel r1) as [evs returned].
      cbn [fst snd] in *.
      exists (req :: frames), r'. cbn [length map parseCalls].
      rewrite (parse_mono fuel (S fuel) r _ Ep) by lia.
      rewrite (parseCalls_mono _ fuel (S fuel) r1 _ Hc) by lia.
      repeat split; [rewrite Ht; reflexivity|].
      intros Hr. destruct (Hd Hr) as (e & r'' & He).
      exists e, r''. apply (parse_mono fuel); [exact He | lia].
    + exists [], r. repeat split. intros _. exists e, r1.
      apply (parse_mono fuel); [exact Ep | lia].
    + exists [], r. repeat split. discriminate.
Qed.

Lemma rawChunks_sender (fuel : nat) : forall (r : R),
  Forall (fun e => isSenderEvent e = true) (fst (rawChunks fuel r)).
Proof.
  induction fuel as [|fuel IH]; intros r; cbn [rawChunks]; [constructor|].
  destruct (ReadFull fuel r _) as [[[[n [e|]] buf] r1]|]; cbn [fst].
  - destruct (0 <? n)%nat; repeat constructor.
  - specialize (IH r1). destruct (rawChunks fuel r1) as [evs r2].
    constructor; [reflexivity | exact IH].
  - constructor.
Qed.

Lemma rawLoop_sender (fuel : nat) : forall (r : R),
  Forall (fun e => isSenderEvent e = true) (fst (rawLoop fuel r)).
Proof.
  induction fuel as [|fuel IH]; intros r; cbn [rawLoop]; [constructor|].
  destruct (parseVideoPacketRequest fuel r) as [[[req|e] r1]|];
    try constructor.
  pose proof (rawChunks_sender fuel r1) as Hc.
  destruct (rawChunks fuel r1) as [chunks [r2|]]; cbn [fst] in *.
  - specialize (IH r2). destruct (rawLoop fuel r2) as [evs returned].
    cbn [fst] in *. constructor; [reflexivity|].
    apply Forall_app. split; assumption.
  - constructor; [reflexivity | exact Hc].
Qed.

Lemma handleVideoPacketRaw_sender (cfg : Config) (fuel : nat) (r : R) :
  Forall (fun e => isSenderEvent e = true)
         (fst (handleVideoPacketRaw NewLongConnSender cfg fuel r)).
Proof.
  unfold handleVideoPacketRaw.
  destruct (NewLongConnSender _ _); [repeat constructor|].
  pose proof (rawLoop_sender fuel r) as Hl.
  destruct (rawLoop fuel r) as [evs returned]. cbn [fst] in *.
  constructor; [reflexivity|].
  apply Forall_app. split; [exact Hl|].
  destruct returned; repeat constructor.
Qed.
End HandlerFacts.

(** ** Raw chunks on the in-memory reader *)

Lemma skipn_make (k n : nat) : skipn k (make n) = make (n - k).
Proof.
  unfold make. revert k. induction n as [|n IH]; intros k.
  - rewrite skipn_nil. reflexivity.
  - destruct k as [|k]; [reflexivity|]. cbn [repeat skipn Nat.sub]. apply IH.
Qed.

Lemma copyInto_nil (buf : list byte) : copyInto buf [] = buf.
Proof. unfold copyInto. rewrite firstn_nil. reflexivity. Qed.

Lemma copyInto_short (l : list byte) (size : nat) :
  (length l <= size)%nat ->
  copyInto (make size) l = l ++ make (size - length l).
Proof.
  intros Hl. unfold copyInto. rewrite make_length, firstn_all2 by exact Hl.
  rewrite skipn_make. reflexivity.
Qed.

Lemma readAtLeast_bytes_step (b : byte) (s buf : list byte) (n fuel : nat) :
  (n < length buf)%nat ->
  readAtLeast (S fuel) (b :: s) buf n
  = readAtLeast fuel (skipn (length buf - n) (b :: s))
      (firstn n buf ++ copyInto (skipn n buf) (firstn (length buf - n) (b :: s)))
      (n + length (firstn (length buf - n) (b :: s))).
Proof.
  intros Hn. cbn [readAtLeast].
  replace (n <? length buf)%nat with true by (symmetry; apply Nat.ltb_lt; exact Hn).
  rewrite Read_cons. cbn [rr_data rr_err rr_next].
  rewrite firstn_firstn, Nat.min_id. reflexivity.
Qed.

Lemma readAtLeast_bytes_nil (buf : list byte) (n fuel : nat) :
  (n < length buf)%nat ->
  readAtLeast (S fuel) (@nil byte) buf n = Some (n, Some EOF, buf, []).
Proof.
  intros Hn. cbn [readAtLeast].
  replace (n <? length buf)%nat with true by (symmetry; apply Nat.ltb_lt; exact Hn).
  rewrite Read_nil. cbn [rr_data rr_err rr_next].
  rewrite firstn_nil, copyInto_nil, firstn_skipn. cbn [length].
  rewrite Nat.add_0_r. reflexivity.
Qed.

Lemma readAtLeast_done {R : Type} `{Reader R} (r : R) (buf : list byte) (n fuel : nat) :
  (length buf <= n)%nat ->
  readAtLeast (S fuel) r buf n = Some (n, None, buf, r).
Proof.
  intros Hn. cbn [readAtLeast].
  replace (n <? length buf)%nat with false by (symmetry; apply Nat.ltb_ge; exact Hn).
  reflexivity.
Qed.

(** [io.ReadFull] on a stream that holds a whole buffer. *)
Lemma ReadFull_bytes_full (chunk rest : list byte) (fuel : nat) :
  chunk <> [] ->
  ReadFull (S (S fuel)) (chunk ++ rest) (make (length chunk))
  = Some (length chunk, None, chunk, rest).
Proof.
  intros Hc. unfold ReadFull.
  destruct chunk as [|b chunk]; [congruence|].
  change ((b :: chunk) ++ rest) with (b :: chunk ++ rest).
  rewrite readAtLeast_bytes_step by (rewrite make_length; simpl; lia).
  change (b :: chunk ++ rest) with ((b :: chunk) ++ rest).
  rewrite make_length, Nat.sub_0_r.
  rewrite firstn_app, firstn_all, Nat.sub_diag, firstn_O, app_nil_r.
  rewrite skipn_app, skipn_all, Nat.sub_diag, skipn_O.
  cbn [firstn skipn app Nat.add]. rewrite copyInto_make.
  rewrite readAtLeast_done by lia.
  rewrite Nat.leb_refl. reflexivity.
Qed.

(** [io.ReadFull] on a stream that ends before the buffer is full: the
    buffer keeps its zeros behind the bytes read. *)
Lemma ReadFull_bytes_short (tail : list byte) (size fuel : nat) :
  tail <> [] -> (length tail < size)%nat ->
  ReadFull (S (S fuel)) tail (make size)
  = Some (length tail, Some ErrUnexpectedEOF,
          tail ++ make (size - length tail), []).
Proof.
  intros Ht Hlt. unfold ReadFull.
  destruct tail as [|b tail]; [congruence|].
  rewrite readAtLeast_bytes_step by (rewrite make_length; lia).
  rewrite make_length, Nat.sub_0_r.
  rewrite (firstn_all2 (b :: tail)) by lia.
  rewrite (skipn_all2 (b :: tail)) by lia.
  cbn [firstn skipn app Nat.add].
  rewrite copyInto_short by lia.
  assert (Hlen : length ((b :: tail) ++ make (size - length (b :: tail))) = size)
    by (rewrite length_app, make_length; lia).
  rewrite readAtLeast_bytes_nil by (rewrite Hlen; exact Hlt).
  rewrite Hlen.
  replace (size <=? length (b :: tail))%nat with false
    by (symmetry; apply Nat.leb_gt; exact Hlt).
  reflexivity.
Qed.

Lemma ReadFull_bytes_nil (size fuel : nat) :
  (0 < size)%nat ->
  ReadFull (S fuel) (@nil byte) (make size) = Some (0%nat, Some EOF, make size, []).
Proof.
  intros Hs. unfold ReadFull.
  rewrite readAtLeast_bytes_nil by (rewrite make_length; exact Hs).
  rewrite make_length.
  replace (size <=? 0)%nat with false by (symmetry; apply Nat.leb_gt; exact Hs).
  reflexivity.
Qed.

(** What the inner loop of the raw handler sends: every whole 4096-byte
    chunk as it is, and for a shorter rest of [n > 0] bytes the whole
    buffer, [n] bytes and [4096 - n] zeros. *)
Lemma rawChunks_bytes (chunks : list (list byte)) : forall (tail : list byte) (fuel : nat),
  Forall (fun c => length c = VideoPacketMaxBufferSize) chunks ->
  (length tail < VideoPacketMaxBufferSize)%nat ->
  rawChunks (length chunks + 3 + fuel) (concat chunks ++ tail)
  = (map SenderSend chunks ++
     match tail with
     | [] => []
     | _ => [SenderSend (tail ++ make (VideoPacketMaxBufferSize - length tail))]
     end, Some []).
Proof.
  induction chunks as [|c chunks IH]; intros tail fuel Hc Ht.
  - cbn [concat app length map Nat.add rawChunks].
    destruct tail as [|b tail].
    + rewrite ReadFull_bytes_nil by (unfold VideoPacketMaxBufferSize; lia).
      reflexivity.
    + rewrite ReadFull_bytes_short by (congruence || exact Ht).
      reflexivity.
  - inversion Hc as [|? ? Hlen Hc']; subst.
    cbn [concat length map Nat.add rawChunks]. rewrite <- app_assoc.
    rewrite <- Hlen at 1.
    replace (length chunks + 3 + fuel)%nat with (S (S (length chunks + 1 + fuel))) at 1 by lia.
    rewrite ReadFull_bytes_full
      by (intros ->; unfold VideoPacketMaxBufferSize in Hlen; discriminate).
    rewrite IH by assumption. reflexivity.
Qed.

(** * The properties of the specification *)

(** C1: on a stream made of valid frames one after the other and then the
    end of the stream, read through the in-memory reader (full reads, no
    error but end-of-stream), as many calls as there are frames return the
    frames in order, each with exactly its input bytes, and one more call
    returns the end-of-stream error. *)
Theorem successive_calls_return_frames (frames : list (list byte)) (fuel : nat) :
  Forall validFrame frames ->
  parseCalls (S (S fuel)) (S (length frames)) (concat frames)
  = Some (map Ok frames ++ [Err EOF], []).
Proof.
  induction 1 as [|f frames Hf _ IH].
  - reflexivity.
  - cbn [concat length map app].
    change (parseCalls (S (S fuel)) (S (S (length frames))) (f ++ concat frames))
      with (match parseVideoPacketRequest (S (S fuel)) (f ++ concat frames) with
            | None => None
            | Some (res, r) =>
                match parseCalls (S (S fuel)) (S (length frames)) r with
                | None => None
                | Some (rs, r) => Some (res :: rs, r)
                end
            end).
    rewrite parse_valid_frame by exact Hf.
    rewrite IH. reflexivity.
Qed.

Lemma successive_calls_return_frames_witness :
  parseCalls 2 3 (concat [payloadFrame; minimalFrame])
  = Some ([Ok payloadFrame; Ok minimalFrame; Err EOF], []).
Proof.
  apply (successive_calls_return_frames [payloadFrame; minimalFrame] 0).
  apply Forall_cons; [apply payloadFrame_valid|].
  apply Forall_cons; [apply minimalFrame_valid | apply Forall_nil].
Defined.

(** C2: a candidate whose length field, read without error, is under 17 or
    stands for a payload of more than 10 MiB is never returned.  The code
    computes the payload length as an unsigned 64-bit difference, so a
    length under 17 wraps to a value over 10 MiB; either way the pass
    yields no frame and surfaces no error but end-of-stream, and when it
    is rejected the same call goes back to scanning for a header byte.
    With a reader that fails only with end-of-stream, the length field of
    every returned buffer is therefore within [17, 17 + 10 MiB]. *)
Theorem invalid_length_never_returned {R : Type} `{Reader R}
    (proto : list byte) (r : R) :
  let length := copyInto (make 4) (rr_data (Read r 4)) in
  rr_err (Read r 4) = None ->
  Uint32 length < 17 \/ Uint32 length - 17 > 10 * 1024 * 1024 ->
  10 * 1024 * 1024 < wrap64 (Uint32 length - 17) /\
  (forall f r', candidate proto r <> Frame f r') /\
  (forall e r', candidate proto r = Failed e r' -> e = EOF) /\
  (forall fuel r0 r',
     scanHeader fuel (make 1) r0 = Some (ScanFound proto r) ->
     candidate proto r = Again r' ->
     parseVideoPacketRequest (S fuel) r0 = parseVideoPacketRequest fuel r') /\
  (EOFOnly R ->
   forall fuel r0 f r',
     parseVideoPacketRequest fuel r0 = Some (Ok f, r') ->
     17 <= Uint32 (firstn 4 (skipn 1 f)) <= 17 + 10 * 1024 * 1024).
Proof.
  cbv zeta. intros He Hb.
  pose proof (candidate_out_of_range proto r He Hb) as Hrej.
  split; [exact (dataLength_out_of_range _ Hb)|].
  split; [intros f r' Hc; rewrite Hc in Hrej; exact Hrej|].
  split; [intros e r' Hc; rewrite Hc in Hrej; exact Hrej|].
  split; [intros fuel r0 r'; apply parse_resumes|].
  intros Heof fuel r0 f r' Hp.
  destruct (parse_Ok_valid Heof fuel r0 f r' Hp) as (_ & _ & _ & Hrange & _).
  unfold maxDataLength in Hrange. lia.
Qed.

Lemma invalid_length_never_returned_witness :
  10 * 1024 * 1024 < wrap64 (Uint32 [x00; x00; x00; x10] - 17) /\
  candidate [x26] (skipn 1 shortLengthFrame ++ minimalFrame)
  = Again (skipn 16 shortLengthFrame ++ minimalFrame).
Proof.
  destruct (invalid_length_never_returned [x26]
              (skipn 1 shortLengthFrame ++ minimalFrame)) as (Hw & _).
  - reflexivity.
  - left. vm_compute. reflexivity.
  - split; [exact Hw | vm_compute; reflexivity].
Defined.

(** C3: an end-of-stream met by any read of a call (the header scan, the
    length, the version, the reserved bytes, the payload or the tail) ends
    the pass with that error, and the call returns it at once; a wrong
    header byte keeps the header scan going, a wrong version byte, a wrong
    tail byte and a payload length over 10 MiB (which is also what a length
    field under 17 wraps to) end the pass with a restart, and the same call
    goes on with the rest of the stream; a call never returns an error
    other than end-of-stream. *)
Theorem eof_is_fatal_malformed_is_skipped {R : Type} `{Reader R} :
  (* the header scan *)
  (forall fuel proto (r : R),
     rr_err (Read r (length proto)) = Some EOF ->
     scanHeader (S fuel) proto r = Some (ScanEOF (rr_next (Read r (length proto))))) /\
  (forall fuel proto (r : R),
     rr_err (Read r (length proto)) = None ->
     nth 0 (copyInto proto (rr_data (Read r (length proto)))) x00 <> x26 ->
     scanHeader (S fuel) proto r
     = scanHeader fuel (copyInto proto (rr_data (Read r (length proto))))
                  (rr_next (Read r (length proto)))) /\
  (* the five reads of a pass *)
  (forall proto (r : R),
    (rr_err (Read r 4) = Some EOF ->
     candidate proto r = Failed EOF (rr_next (Read r 4))) /\
    (forall len dataLength r1,
       readLength r = Next (len, dataLength, r1) ->
       (rr_err (Read r1 1) = Some EOF ->
        candidate proto r = Failed EOF (rr_next (Read r1 1))) /\
       (rr_err (Read r1 1) = None ->
        nth 0 (copyInto (make 1) (rr_data (Read r1 1))) x00 <> x01 ->
        candidate proto r = Again (rr_next (Read r1 1))) /\
       (forall version r2,
          readVersion r1 = Next (version, r2) ->
          (rr_err (Read r2 10) = Some EOF ->
           candidate proto r = Failed EOF (rr_next (Read r2 10))) /\
          (forall reserved r3,
             readReserved r2 = Next (reserved, r3) ->
             (10 * 1024 * 1024 < dataLength -> candidate proto r = Again r3) /\
             (0 < dataLength <= 10 * 1024 * 1024 ->
              rr_err (Read r3 (Z.to_nat dataLength)) = Some EOF ->
              candidate proto r
              = Failed EOF (rr_next (Read r3 (Z.to_nat dataLength)))) /\
             (forall data r4,
                readData dataLength r3 = Next (data, r4) ->
                (rr_err (Read r4 1) = Some EOF ->
                 candidate proto r = Failed EOF (rr_next (Read r4 1))) /\
                (rr_err (Read r4 1) = None ->
                 nth 0 (copyInto (make 1) (rr_data (Read r4 1))) x00 <> x28 ->
                 candidate proto r = Again (rr_next (Read r4 1)))))))) /\
  (* a length field under 17 is an oversized payload length *)
  (forall (r : R),
     rr_err (Read r 4) = None ->
     Uint32 (copyInto (make 4) (rr_data (Read r 4))) < 17 ->
     exists len dataLength r1,
       readLength r = Next (len, dataLength, r1) /\
       10 * 1024 * 1024 < dataLength) /\
  (* what the call does with the end of a pass *)
  (forall fuel (r0 r : R),
     scanHeader fuel (make 1) r0 = Some (ScanEOF r) ->
     parseVideoPacketRequest (S fuel) r0 = Some (Err EOF, r)) /\
  (forall fuel (r0 r r' : R) proto e,
     scanHeader fuel (make 1) r0 = Some (ScanFound proto r) ->
     candidate proto r = Failed e r' ->
     parseVideoPacketRequest (S fuel) r0 = Some (Err e, r')) /\
  (forall fuel (r0 r r' : R) proto,
     scanHeader fuel (make 1) r0 = Some (ScanFound proto r) ->
     candidate proto r = Again r' ->
     parseVideoPacketRequest (S fuel) r0 = parseVideoPacketRequest fuel r') /\
  (forall fuel (r r' : R) e,
     parseVideoPacketRequest fuel r = Some (Err e, r') -> e = EOF).
Proof.
  split; [intros fuel proto r; apply scanHeader_EOF|].
  split; [intros fuel proto r; apply scanHeader_skips|].
  split; [intros proto r; apply candidate_cases|].
  split.
  { intros r He Hlt. do 3 eexists. split; [apply readLength_read; exact He|].
    apply dataLength_out_of_range. left. exact Hlt. }
  split; [intros fuel r0 r; apply parse_scan_EOF|].
  split; [intros fuel r0 r r' proto e; apply parse_candidate_Failed|].
  split; [intros fuel r0 r r' proto; apply parse_resumes|].
  intros fuel r r' e. apply parse_Err_EOF.
Qed.

(** On [0x07], then a candidate with version byte 2, then [0x09]: the
    wrong first byte is skipped, the candidate is rejected at its version
    byte, the scan goes on in the same call and meets the end of the
    stream.  With version byte 1 the candidate fails at its tail read,
    where the stream has ended. *)
Lemma eof_is_fatal_malformed_is_skipped_witness :
  candidate [x26] [x00; x00; x00; x11; x02; x09] = Again [x09] /\
  candidate [x26] [x00; x00; x00; x11; x01; x09] = Failed EOF [] /\
  parseVideoPacketRequest 4 [x07; x26; x00; x00; x00; x11; x02; x09]
  = Some (Err EOF, []).
Proof.
  destruct (@eof_is_fatal_malformed_is_skipped (list byte) BytesReader)
    as (_ & Hskip & Hpass & _ & Hscan & _ & Hagain & _).
  destruct (Hpass [x26] [x00; x00; x00; x11; x02; x09]) as (_ & Hlen).
  destruct (Hlen [x00; x00; x00; x11] 0 [x02; x09] eq_refl) as (_ & Hver & _).
  destruct (Hpass [x26] [x00; x00; x00; x11; x01; x09]) as (_ & Hlen').
  destruct (Hlen' [x00; x00; x00; x11] 0 [x01; x09] eq_refl) as (_ & _ & Hres).
  destruct (Hres [x01] [x09] eq_refl) as (_ & Hdata).
  destruct (Hdata ([x09] ++ repeat x00 9) [] eq_refl) as (_ & _ & Htail).
  destruct (Htail [] [] eq_refl) as (Heof & _).
  split; [apply Hver; [reflexivity | vm_compute; discriminate]|].
  split; [apply Heof; reflexivity|].
  rewrite (Hagain 3%nat [x07; x26; x00; x00; x00; x11; x02; x09]
             [x00; x00; x00; x11; x02; x09] [x09] [x26]);
    [|reflexivity | apply Hver; [reflexivity | vm_compute; discriminate]].
  apply (Hscan 2%nat). reflexivity.
Defined.

(** C4: the 17 bytes [0x26 00 00 00 11 01 <10 zero bytes> 0x28], whose
    length field is 17 and whose payload is therefore empty, are parsed
    successfully and returned as they are. *)
Theorem minimal_frame_parses (fuel : nat) :
  parseVideoPacketRequest (S (S fuel)) minimalFrame = Some (Ok minimalFrame, []) /\
  length minimalFrame = 17%nat /\
  Uint32 (firstn 4 (skipn 1 minimalFrame)) - 17 = 0 /\
  readData (wrap64 (Uint32 (firstn 4 (skipn 1 minimalFrame)) - 17)) [x28]
  = Next ([], [x28]).
Proof.
  split; [|repeat split].
  apply (parse_mono 2); [reflexivity | lia].
Qed.

(** C5: when the minimal frame with its tail byte turned into [0x29] is
    followed at once by a valid frame, the first candidate is rejected at
    its tail byte, no frame is returned for it, and the same call returns
    the valid frame that follows, byte for byte. *)
Theorem bad_tail_then_valid_frame (f rest : list byte) (fuel : nat) :
  validFrame f ->
  candidate [x26] (skipn 1 badTailFrame ++ f ++ rest) = Again (f ++ rest) /\
  parseVideoPacketRequest (S (S (S fuel))) (badTailFrame ++ f ++ rest)
  = Some (Ok f, rest).
Proof.
  intros Hf.
  assert (Hc : candidate [x26] (skipn 1 badTailFrame ++ f ++ rest) = Again (f ++ rest)).
  { change (skipn 1 badTailFrame ++ f ++ rest)
      with ([x00; x00; x00; x11] ++ x01 :: repeat x00 10 ++ [] ++ x29 :: (f ++ rest)).
    rewrite candidate_bytes; try reflexivity.
    vm_compute. discriminate. }
  split; [exact Hc|].
  change (parseVideoPacketRequest (S (S (S fuel))) (badTailFrame ++ f ++ rest))
    with (match candidate [x26] (skipn 1 badTailFrame ++ f ++ rest) with
          | Frame reqData r => Some (Ok reqData, r)
          | Failed e r => Some (Err e, r)
          | Again r => parseVideoPacketRequest (S (S fuel)) r
          end).
  rewrite Hc. apply parse_valid_frame. exact Hf.
Qed.

Lemma bad_tail_then_valid_frame_witness :
  candidate [x26] (skipn 1 badTailFrame ++ payloadFrame ++ [x07])
  = Again (payloadFrame ++ [x07]) /\
  parseVideoPacketRequest 3 (badTailFrame ++ payloadFrame ++ [x07])
  = Some (Ok payloadFrame, [x07]).
Proof.
  apply (bad_tail_then_valid_frame payloadFrame [x07] 0).
  apply payloadFrame_valid.
Defined.

(** C6, as stated, fails.  On [0x26 0x00] followed at once by the minimal
    frame, the candidate opened by the first [0x26] takes [00 26 00 00] for
    its length field and the frame's [00] for its version byte, is rejected
    there, and the scan goes on behind the five bytes already read; the
    rest of the valid frame holds no header byte, so the call ends with
    end-of-stream and no call ever returns the frame.  The same happens
    when [0x00] is put in behind the header byte of a valid frame whose
    last reserved byte is [0x26]: the scan that follows the rejection opens
    a candidate at that byte, which reads into the next frame. *)
Lemma resync_counterexample :
  validFrame minimalFrame /\
  candidate [x26] ([x00] ++ minimalFrame) = Again (skipn 4 minimalFrame) /\
  (forall fuel,
     parseVideoPacketRequest (16 + fuel) ([x26; x00] ++ minimalFrame)
     = Some (Err EOF, [])) /\
  (forall fuel n results r',
     parseCalls fuel n ([x26; x00] ++ minimalFrame) = Some (results, r') ->
     ~ In (Ok minimalFrame) results) /\
  validFrame markerInReservedFrame /\
  candidate [x26] ([x00] ++ skipn 1 markerInReservedFrame ++ minimalFrame)
  = Again (skipn 5 markerInReservedFrame ++ minimalFrame) /\
  (forall fuel n results r',
     parseCalls fuel n
       ([x26; x00] ++ skipn 1 markerInReservedFrame ++ minimalFrame)
     = Some (results, r') ->
     ~ In (Ok minimalFrame) results).
Proof.
  assert (H16 : forall fuel,
     parseVideoPacketRequest (16 + fuel) ([x26; x00] ++ minimalFrame)
     = Some (Err EOF, [])).
  { intros fuel. apply (parse_mono 16); [vm_compute; reflexivity | lia]. }
  split; [apply minimalFrame_valid|].
  split; [vm_compute; reflexivity|].
  split; [exact H16|].
  split.
  { intros fuel n results r' Hc Hin.
    pose proof (parseCalls_all_EOF _ _ (H16 0%nat) fuel n results r' Hc) as Hall.
    rewrite Forall_forall in Hall. apply Hall in Hin. discriminate Hin. }
  split.
  { unfold validFrame. repeat split; try reflexivity; vm_compute; discriminate. }
  split; [vm_compute; reflexivity|].
  intros fuel n results r' Hc Hin.
  assert (H40 : parseVideoPacketRequest 40
                  ([x26; x00] ++ skipn 1 markerInReservedFrame ++ minimalFrame)
                = Some (Err EOF, [])) by (vm_compute; reflexivity).
  pose proof (parseCalls_all_EOF _ _ H40 fuel n results r' Hc) as Hall.
  rewrite Forall_forall in Hall. apply Hall in Hin. discriminate Hin.
Qed.

(** C6, amended: when the candidate opened by a header byte is rejected
    and what is left unread at that point is bytes other than [0x26]
    followed by a valid frame, the same call returns that frame, byte for
    byte (in-memory reader).  Bytes that the rejected candidate has read
    are not scanned again. *)
Theorem resync_after_rejected_candidate (s g f rest : list byte) (fuel : nat) :
  candidate [x26] s = Again (g ++ f ++ rest) ->
  Forall (fun b => b <> x26) g ->
  validFrame f ->
  parseVideoPacketRequest (length g + 3 + fuel) (x26 :: s) = Some (Ok f, rest).
Proof.
  intros Hc Hg Hf.
  replace (length g + 3 + fuel)%nat with (S (S (length g + S fuel))) by lia.
  change (parseVideoPacketRequest (S (S (length g + S fuel))) (x26 :: s))
    with (match candidate [x26] s with
          | Frame reqData r => Some (Ok reqData, r)
          | Failed e r => Some (Err e, r)
          | Again r => parseVideoPacketRequest (S (length g + S fuel)) r
          end).
  rewrite Hc. apply parse_garbage_then_frame; assumption.
Qed.

(** The minimal frame with [0x00] put in behind its header byte, then a
    valid frame: the version check fails on [0x11] and the frame behind
    is found. *)
Lemma resync_after_rejected_candidate_witness :
  parseVideoPacketRequest 15
    (x26 :: ([x00] ++ skipn 1 minimalFrame ++ payloadFrame ++ [x07]))
  = Some (Ok payloadFrame, [x07]).
Proof.
  apply (resync_after_rejected_candidate
           ([x00] ++ skipn 1 minimalFrame ++ payloadFrame ++ [x07])
           (skipn 5 minimalFrame) payloadFrame [x07] 0).
  - vm_compute. reflexivity.
  - repeat constructor; discriminate.
  - apply payloadFrame_valid.
Defined.

(** C7: in raw mode, on the minimal frame followed by the one byte [0x41]
    and the end of the stream, the anchor frame goes to the sender as it
    is; the read of the next chunk gets one byte before it fails, and what
    the code then sends is the whole 4096-byte buffer, [0x41] and 4095
    zeros, not the one byte read. *)
Theorem raw_short_read_sends_padded_buffer :
  handleVideoPacketRaw (fun _ _ => None) (mkConfig 0 0 "10.0.0.1:80") 5 (minimalFrame ++ [x41])
  = ([NewSender 1 "10.0.0.1:80";
      SenderSend minimalFrame;
      SenderSend ([x41] ++ make 4095);
      Cancel], true) /\
  ~ In (SenderSend [x41])
       (fst (handleVideoPacketRaw (fun _ _ => None) (mkConfig 0 0 "10.0.0.1:80") 5
               (minimalFrame ++ [x41]))).
Proof.
  assert (E : handleVideoPacketRaw (fun _ _ => None) (mkConfig 0 0 "10.0.0.1:80") 5
                (minimalFrame ++ [x41])
              = ([NewSender 1 "10.0.0.1:80"; SenderSend minimalFrame;
                  SenderSend ([x41] ++ make 4095); Cancel], true))
    by (vm_compute; reflexivity).
  split; [exact E|].
  rewrite E. cbn [fst In].
  intros [H|[H|[H|[H|[]]]]]; try discriminate H.
Qed.

(** C9: with a reader that fails with nothing but end-of-stream, every
    buffer a call returns is a valid frame: byte 0 is [0x26], byte 5 is
    [1], the last byte is [0x28], the payload length (the big-endian value
    of bytes 1..4 minus 17) is within [0, 10 MiB], and the buffer has 17
    bytes more than the payload length. *)
Theorem returned_buffer_is_valid_frame {R : Type} `{Reader R}
    (fuel : nat) (r r' : R) (f : list byte) :
  EOFOnly R ->
  parseVideoPacketRequest fuel r = Some (Ok f, r') ->
  nth 0 f x00 = x26 /\
  nth 5 f x00 = x01 /\
  last f x00 = x28 /\
  let payloadLength := Uint32 (firstn 4 (skipn 1 f)) - 17 in
  0 <= payloadLength <= 10 * 1024 * 1024 /\
  Z.of_nat (length f) = 17 + payloadLength.
Proof.
  intros Heof Hp. exact (parse_Ok_valid Heof fuel r f r' Hp).
Qed.

(** A reader with short reads: the first packet ends three bytes into the
    reserved field, so the read of the ten reserved bytes gets three, and
    the tail byte comes from the next packet.  The buffer returned has the
    layout of a valid frame. *)
Lemma returned_buffer_is_valid_frame_witness :
  let f := [x26; x00; x00; x00; x11; x01; x07; x07; x07] ++ repeat x00 7 ++ [x28] in
  nth 0 f x00 = x26 /\
  nth 5 f x00 = x01 /\
  last f x00 = x28 /\
  let payloadLength := Uint32 (firstn 4 (skipn 1 f)) - 17 in
  0 <= payloadLength <= 10 * 1024 * 1024 /\
  Z.of_nat (length f) = 17 + payloadLength.
Proof.
  apply (returned_buffer_is_valid_frame 2
           [[x26; x00; x00; x00; x11; x01; x07; x07; x07]; [x28; x09]]
           [[x09]]).
  - exact PacketReader_EOFOnly.
  - vm_compute. reflexivity.
Defined.

(** C10: on a finite stream whose reader reports no error but the end of
    the stream ([Finite]: a read either reports end-of-stream or succeeds
    and leaves less of the stream) a call always returns.  An iteration of
    the header scan either meets the end of the stream or takes from the
    stream; a pass returns a frame or the end-of-stream error or restarts
    with less of the stream left; and with two more units of fuel than the
    size of the stream the call returns a frame or the end-of-stream
    error. *)
Theorem parser_terminates {R : Type} `{Reader R} (size : R -> nat) (r : R) :
  Finite size ->
  (forall proto, proto <> [] ->
     match scanStep proto r with
     | ScanEOF _ => True
     | ScanFound _ r' | ScanMore _ r' => (size r' < size r)%nat
     end) /\
  (forall proto,
     match candidate proto r with
     | Frame _ r' => (size r' < size r)%nat
     | Failed e _ => e = EOF
     | Again r' => (size r' < size r)%nat
     end) /\
  (forall fuel, (size r + 2 <= fuel)%nat ->
     exists res r', parseVideoPacketRequest fuel r = Some (res, r') /\
                    (res = Err EOF \/ exists f, res = Ok f)).
Proof.
  intros Hfin.
  split; [intros proto; apply scanStep_progress; exact Hfin|].
  split; [intros proto; apply candidate_progress; exact Hfin|].
  intros fuel Hf.
  destruct (parse_total size Hfin fuel r Hf) as (res & r' & Hp).
  exists res, r'. split; [exact Hp|].
  destruct res as [f|e]; [right; eauto|].
  left. f_equal. eapply parse_Err_EOF. exact Hp.
Qed.

(** The in-memory reader is such a reader, with the number of bytes left
    as the size. *)
Lemma parser_terminates_witness :
  exists res s',
    parseVideoPacketRequest 26 ([x26; x00; x07] ++ payloadFrame ++ [x26; x01])
    = Some (res, s') /\
    (res = Err EOF \/ exists f, res = Ok f).
Proof.
  destruct (parser_terminates (@length byte)
              ([x26; x00; x07] ++ payloadFrame ++ [x26; x01])
              BytesReader_Finite)
    as (_ & _ & Hcall).
  apply (Hcall 26%nat). simpl. lia.
Defined.

(** * Further properties of the parser *)

(** ** What the in-memory reader hands to a read *)

Lemma readInto_bytes_inv (s buf s' : list byte) (k : nat) :
  readInto s (make k) = (buf, None, s') ->
  (s = buf ++ s' /\ length buf = k) \/ (s' = [] /\ (length s < k)%nat).
Proof.
  unfold readInto. rewrite make_length.
  destruct s as [|b s]; [rewrite Read_nil; discriminate|].
  rewrite Read_cons. cbn [rr_data rr_err rr_next]. intros [= <- <-].
  destruct (Nat.le_gt_cases k (length (b :: s))) as [Hle|Hgt].
  - left.
    assert (Hl : length (firstn k (b :: s)) = k)
      by (rewrite length_firstn; lia).
    rewrite copyInto_short by lia. rewrite Hl, Nat.sub_diag.
    change (make 0) with (@nil byte). rewrite app_nil_r.
    split; [symmetry; apply firstn_skipn | exact Hl].
  - right. split; [apply skipn_all2; lia | exact Hgt].
Qed.

Lemma readInto_bytes_EOF (s buf s' : list byte) (k : nat) (e : error) :
  readInto s (make k) = (buf, Some e, s') -> s = [] /\ s' = [] /\ e = EOF.
Proof.
  unfold readInto. rewrite make_length.
  destruct s as [|b s]; [rewrite Read_nil|rewrite Read_cons];
    cbn [rr_data rr_err rr_next]; [|discriminate].
  intros [= _ <- <-]. auto.
Qed.

(** Where each step of a pass leaves the in-memory reader: behind the bytes
    it returns, or at the end of the stream after a short read. *)
Lemma readLength_bytes_inv (s len s1 : list byte) (dataLength : Z) :
  readLength s = Next (len, dataLength, s1) ->
  s = len ++ s1 \/ s1 = [].
Proof.
  unfold readLength.
  destruct (readInto s (make 4)) as [[buf [e|]] s'] eqn:E.
  - apply readInto_bytes_EOF in E. destruct E as (_ & _ & ->). discriminate.
  - destruct (_ <? 0); [discriminate|]. intros [= <- _ <-].
    apply readInto_bytes_inv in E. destruct E as [(E & _)|(E & _)]; auto.
Qed.

Lemma readReserved_bytes_inv (s reserved s1 : list byte) :
  readReserved s = Next (reserved, s1) ->
  s = reserved ++ s1 \/ s1 = [].
Proof.
  unfold readReserved.
  destruct (readInto s (make 10)) as [[buf [e|]] s'] eqn:E.
  - apply readInto_bytes_EOF in E. destruct E as (_ & _ & ->). discriminate.
  - intros [= <- <-].
    apply readInto_bytes_inv in E. destruct E as [(E & _)|(E & _)]; auto.
Qed.

Lemma readData_bytes_inv (dataLength : Z) (s data s1 : list byte) :
  readData dataLength s = Next (data, s1) ->
  s = data ++ s1 \/ s1 = [].
Proof.
  unfold readData.
  destruct (dataLength >? 0); [|intros [= <- <-]; left; reflexivity].
  destruct (dataLength >? maxDataLength); [discriminate|].
  destruct (readInto s _) as [[buf [e|]] s'] eqn:E.
  - apply readInto_bytes_EOF in E. destruct E as (_ & _ & ->). discriminate.
  - intros [= <- <-].
    apply readInto_bytes_inv in E. destruct E as [(E & _)|(E & _)]; auto.
Qed.

Lemma readVersion_bytes_inv (s version s1 : list byte) :
  readVersion s = Next (version, s1) -> s = version ++ s1 /\ s <> [].
Proof.
  destruct s as [|b s]; [discriminate|].
  rewrite readVersion_bytes. destruct (u8 b =? 1); [|discriminate].
  intros [= <- <-]. split; [reflexivity | discriminate].
Qed.

Lemma readTail_bytes_inv (s tail s1 : list byte) :
  readTail s = Next (tail, s1) -> s = tail ++ s1 /\ s <> [].
Proof.
  destruct s as [|b s]; [discriminate|].
  rewrite readTail_bytes. destruct (u8 b =? 40); [|discriminate].
  intros [= <- <-]. split; [reflexivity | discriminate].
Qed.

Lemma candidate_bytes_Frame (proto s f s' : list byte) :
  candidate proto s = Frame f s' ->
  exists body, f = proto ++ body /\ s = body ++ s'.
Proof.
  intros Hc. apply candidate_Frame_inv in Hc.
  destruct Hc as (len & dl & version & reserved & data & tail & s1 & s2 & s3 & s4
                  & E1 & E2 & E3 & E4 & E5 & ->).
  apply readTail_bytes_inv in E5. destruct E5 as (E5 & N4).
  apply readVersion_bytes_inv in E2. destruct E2 as (E2 & N1).
  apply readLength_bytes_inv in E1.
  apply readReserved_bytes_inv in E3.
  apply readData_bytes_inv in E4.
  assert (N3 : s3 <> []).
  { intros ->. destruct E4 as [E4|E4]; [|contradiction].
    symmetry in E4. apply app_eq_nil in E4. destruct E4; contradiction. }
  destruct E1 as [E1|E1]; [|contradiction].
  destruct E3 as [E3|E3]; [|contradiction].
  destruct E4 as [E4|E4]; [|contradiction].
  exists (len ++ version ++ reserved ++ data ++ tail).
  split; [reflexivity|].
  rewrite E1, E2, E3, E4, E5. rewrite <- !app_assoc. reflexivity.
Qed.

Lemma candidate_bytes_Failed (proto s s' : list byte) (e : error) :
  candidate proto s = Failed e s' -> s' = [].
Proof.
  unfold candidate, parseCandidate.
  assert (Hend : forall (t : list byte) k, rr_err (Read t k) = Some EOF ->
                                           rr_next (Read t k) = [])
    by (intros [|b t] k; [reflexivity | discriminate]).
  destruct (readLength s) as [[[len dl] s1]|o1] eqn:E1; cbn [bind];
    [|intros ->; apply readLength_Exit in E1; destruct E1 as (He & [= _ ->]);
      exact (Hend _ _ He)].
  destruct (readVersion s1) as [[version s2]|o2] eqn:E2; cbn [bind];
    [|intros ->; apply readVersion_Exit in E2;
      destruct E2 as [(He & [= _ ->])|(_ & ? & _)]; [exact (Hend _ _ He) | discriminate]].
  destruct (readReserved s2) as [[reserved s3]|o3] eqn:E3; cbn [bind];
    [|intros ->; apply readReserved_Exit in E3; destruct E3 as (He & [= _ ->]);
      exact (Hend _ _ He)].
  destruct (readData dl s3) as [[data s4]|o4] eqn:E4; cbn [bind];
    [|intros ->; apply readData_Exit in E4;
      destruct E4 as [(_ & ?)|(_ & He & [= _ ->])]; [discriminate | exact (Hend _ _ He)]].
  destruct (readTail s4) as [[tail s5]|o5] eqn:E5; cbn [bind];
    [|intros ->; apply readTail_Exit in E5;
      destruct E5 as [(He & [= _ ->])|(_ & ? & _)]; [exact (Hend _ _ He) | discriminate]].
  discriminate.
Qed.

(** Every step of a pass leaves the in-memory reader at a suffix of
    where it found it. *)
Lemma Read_bytes_suffix (s : list byte) (k : nat) :
  exists used, s = used ++ rr_next (Read s k).
Proof.
  destruct s as [|b s]; [exists []; reflexivity|].
  rewrite Read_cons. cbn [rr_next]. exists (firstn k (b :: s)).
  symmetry. apply firstn_skipn.
Qed.

Lemma candidate_bytes_suffix (proto s : list byte) :
  match candidate proto s with
  | Frame _ s' | Again s' => exists used, s = used ++ s'
  | Failed _ _ => True
  end.
Proof.
  unfold candidate, parseCandidate.
  destruct (readLength s) as [[[len dl] s1]|o1] eqn:E1; cbn [bind].
  2:{ apply readLength_Exit in E1. destruct E1 as (_ & ->). exact I. }
  apply readLength_Next in E1. destruct E1 as (_ & -> & _).
  destruct (Read_bytes_suffix s 4) as (u1 & H1).
  set (s1 := rr_next (Read s 4)) in *.
  destruct (readVersion s1) as [[version s2]|o2] eqn:E2; cbn [bind].
  2:{ apply readVersion_Exit in E2.
      destruct E2 as [(_ & ->)|(_ & -> & _)]; [exact I|].
      destruct (Read_bytes_suffix s1 1) as (u2 & H2).
      exists (u1 ++ u2). rewrite <- app_assoc, <- H2. exact H1. }
  apply readVersion_Next in E2. destruct E2 as (_ & -> & _).
  destruct (Read_bytes_suffix s1 1) as (u2 & H2).
  set (s2 := rr_next (Read s1 1)) in *.
  destruct (readReserved s2) as [[reserved s3]|o3] eqn:E3; cbn [bind].
  2:{ apply readReserved_Exit in E3. destruct E3 as (_ & ->). exact I. }
  apply readReserved_Next in E3. destruct E3 as (_ & ->).
  destruct (Read_bytes_suffix s2 10) as (u3 & H3).
  set (s3 := rr_next (Read s2 10)) in *.
  assert (H03 : s = (u1 ++ u2 ++ u3) ++ s3)
    by (rewrite <- !app_assoc, <- H3, <- H2; exact H1).
  destruct (readData dl s3) as [[data s4]|o4] eqn:E4; cbn [bind].
  2:{ apply readData_Exit in E4.
      destruct E4 as [(_ & ->)|(_ & _ & ->)]; [|exact I]. eauto. }
  assert (H04 : exists u, s = u ++ s4).
  { apply readData_bytes_inv in E4. destruct E4 as [E4| ->].
    - exists ((u1 ++ u2 ++ u3) ++ data). rewrite <- app_assoc, <- E4. exact H03.
    - exists s. symmetry. apply app_nil_r. }
  destruct H04 as (u4 & H04).
  destruct (Read_bytes_suffix s4 1) as (u5 & H5).
  assert (H05 : s = (u4 ++ u5) ++ rr_next (Read s4 1))
    by (rewrite <- app_assoc, <- H5; exact H04).
  destruct (readTail s4) as [[tail s5]|o5] eqn:E5; cbn [bind].
  2:{ apply readTail_Exit in E5.
      destruct E5 as [(_ & ->)|(_ & -> & _)]; [exact I | eauto]. }
  apply readTail_Next in E5. destruct E5 as (_ & -> & _). eauto.
Qed.

(** The header scan on the in-memory reader stops behind the first [0x26],
    or at the end of a stream that has none. *)
Lemma scanHeader_bytes_inv (fuel : nat) : forall (p : byte) (s : list byte) sc,
  scanHeader fuel [p] s = Some sc ->
  (sc = ScanEOF [] /\ Forall (fun b => b <> x26) s) \/
  (exists g s', sc = ScanFound [x26] s' /\ s = g ++ x26 :: s' /\
                Forall (fun b => b <> x26) g).
Proof.
  induction fuel as [|fuel IH]; intros p s sc; [discriminate|].
  cbn [scanHeader]. destruct s as [|b s].
  - intros [= <-]. left. split; [reflexivity | constructor].
  - rewrite scanStep_bytes. destruct (u8 b =? 38) eqn:Eb.
    + apply Z.eqb_eq in Eb. apply (u8_inj b x26) in Eb. subst b.
      intros [= <-]. right. exists [], s. repeat split. constructor.
    + assert (Hb : b <> x26) by (intros ->; discriminate).
      intros Hs. apply IH in Hs.
      destruct Hs as [(-> & Hg)|(g & s' & -> & -> & Hg)].
      * left. split; [reflexivity | constructor; assumption].
      * right. exists (b :: g), s'. repeat split. constructor; assumption.
Qed.

Lemma parse_bytes_inv (fuel : nat) : forall (s : list byte) res s',
  parseVideoPacketRequest fuel s = Some (res, s') ->
  match res with
  | Ok f => exists pre, s = pre ++ f ++ s'
  | Err _ => s' = []
  end.
Proof.
  induction fuel as [|fuel IH]; intros s res s'; [discriminate|].
  cbn [parseVideoPacketRequest]. change (make 1) with [x00].
  destruct (scanHeader fuel [x00] s) as [sc|] eqn:Es; [|discriminate].
  apply scanHeader_bytes_inv in Es.
  destruct Es as [(-> & _)|(g & s1 & -> & -> & _)].
  - intros [= <- <-]. reflexivity.
  - destruct (candidate [x26] s1) as [f s2|e s2|s2] eqn:Ec.
    + intros [= <- <-]. apply candidate_bytes_Frame in Ec.
      destruct Ec as (body & -> & ->). exists g.
      rewrite <- !app_assoc. reflexivity.
    + intros [= <- <-]. eapply candidate_bytes_Failed. exact Ec.
    + intros Hp. pose proof (IH _ _ _ Hp) as Hrec.
      pose proof (candidate_bytes_suffix [x26] s1) as Hsuf. rewrite Ec in Hsuf.
      destruct Hsuf as (used & ->).
      destruct res as [f|e]; [|exact Hrec].
      destruct Hrec as (pre & ->).
      exists (g ++ x26 :: used ++ pre).
      rewrite <- !app_assoc. cbn [app]. rewrite <- !app_assoc. reflexivity.
Qed.
(** X1: on the in-memory reader, a frame that a call returns is a run of
    consecutive bytes of the stream, and the reader is left just behind
    it: the stream is some skipped bytes, then the frame, then what is
    still unread.  No byte of a returned frame is made up or changed. *)
Theorem returned_frame_is_stream_segment (fuel : nat) (s f rest : list byte) :
  parseVideoPacketRequest fuel s = Some (Ok f, rest) ->
  exists skipped, s = skipped ++ f ++ rest.
Proof.
  intros Hp. exact (parse_bytes_inv fuel s (Ok f) rest Hp).
Qed.

Lemma returned_frame_is_stream_segment_witness :
  exists skipped,
    [x00; x26; x07] ++ badTailFrame ++ payloadFrame ++ [x09]
    = skipped ++ payloadFrame ++ [x09].
Proof.
  apply (returned_frame_is_stream_segment 30
           ([x00; x26; x07] ++ badTailFrame ++ payloadFrame ++ [x09])).
  vm_compute. reflexivity.
Defined.

(** X2: on the in-memory reader, a stream in which no run of consecutive
    bytes is a valid frame (a stream shorter than 17 bytes, or one without
    a [0x26] byte, for instance) makes the call return the end-of-stream
    error with the whole stream read. *)
Theorem stream_without_frame_gives_EOF (fuel : nat) (s : list byte) :
  (forall skipped f rest, s = skipped ++ f ++ rest -> ~ validFrame f) ->
  (length s + 2 <= fuel)%nat ->
  parseVideoPacketRequest fuel s = Some (Err EOF, []).
Proof.
  intros Hnone Hf.
  destruct (parse_total (@length byte) BytesReader_Finite fuel s Hf)
    as (res & s' & Hp).
  pose proof (parse_bytes_inv fuel s res s' Hp) as Hinv.
  destruct res as [f|e].
  - destruct Hinv as (skipped & Hs).
    exfalso. apply (Hnone skipped f s' Hs).
    exact (parse_Ok_valid BytesReader_EOFOnly fuel s f s' Hp).
  - subst s'. rewrite Hp. f_equal. f_equal. f_equal.
    exact (parse_Err_EOF fuel s e [] Hp).
Qed.

(** A valid frame has at least 17 bytes. *)
Lemma stream_without_frame_gives_EOF_witness :
  parseVideoPacketRequest 18 (firstn 16 minimalFrame) = Some (Err EOF, []).
Proof.
  apply (stream_without_frame_gives_EOF 18 (firstn 16 minimalFrame)).
  - intros skipped f rest Hs (_ & _ & _ & Hrange & Hlen).
    apply (f_equal (@length byte)) in Hs.
    rewrite !length_app in Hs. simpl in Hs. lia.
  - simpl. lia.
Defined.

(** X3: on the in-memory reader, bytes other than [0x26] in front of a
    valid frame are skipped: the call returns the frame, byte for byte, and
    leaves the reader just behind it. *)
Theorem leading_garbage_is_skipped (g f rest : list byte) (fuel : nat) :
  Forall (fun b => b <> x26) g ->
  validFrame f ->
  parseVideoPacketRequest (length g + 2 + fuel) (g ++ f ++ rest)
  = Some (Ok f, rest).
Proof.
  intros Hg Hf.
  replace (length g + 2 + fuel)%nat with (S (length g + S fuel)) by lia.
  apply parse_garbage_then_frame; assumption.
Qed.

Lemma leading_garbage_is_skipped_witness :
  parseVideoPacketRequest 5 ([x28; x00; x01] ++ payloadFrame ++ [x26])
  = Some (Ok payloadFrame, [x26]).
Proof.
  apply (leading_garbage_is_skipped [x28; x00; x01] payloadFrame [x26] 0).
  - repeat constructor; discriminate.
  - apply payloadFrame_valid.
Defined.
(** ** Short reads *)

Lemma Read_packet (b : byte) (p : list byte) (ps : packets) (k : nat) :
  Read ((b :: p) :: ps) k
  = mkRead (firstn k (b :: p)) None (skipn k (b :: p) :: ps).
Proof. reflexivity. Qed.

Lemma readInto_packet_full (d p : list byte) (ps : packets) :
  d <> [] ->
  readInto ((d ++ p) :: ps) (make (length d)) = (d, None, p :: ps).
Proof.
  intros Hd. unfold readInto. rewrite make_length.
  destruct d as [|b d]; [congruence|].
  change ((b :: d) ++ p) with (b :: d ++ p). rewrite Read_packet.
  cbn [rr_data rr_err rr_next].
  change (b :: d ++ p) with ((b :: d) ++ p).
  rewrite firstn_app, firstn_all, Nat.sub_diag, firstn_O, app_nil_r.
  rewrite skipn_app, skipn_all, Nat.sub_diag, skipn_O.
  rewrite copyInto_make. reflexivity.
Qed.

Lemma readInto_packet_short (p : list byte) (ps : packets) (k : nat) :
  p <> [] -> (length p < k)%nat ->
  readInto (p :: ps) (make k) = (p ++ make (k - length p), None, [] :: ps).
Proof.
  intros Hp Hk. unfold readInto. rewrite make_length.
  destruct p as [|b p]; [congruence|].
  rewrite Read_packet. cbn [rr_data rr_err rr_next].
  rewrite firstn_all2 by lia. rewrite skipn_all2 by lia.
  rewrite copyInto_short by lia. reflexivity.
Qed.

(** X4: a short read is taken for a full one.  With the packet reader,
    when a packet ends inside the reserved field of a candidate whose
    length field is 17, the read of the ten reserved bytes gets the bytes
    that are left in the packet and is not repeated; the first byte of the
    next packet is then read as the tail, and with [0x28] there the call
    returns a 17-byte frame whose reserved field is those bytes followed by
    zeros, and leaves the reader behind that one byte. *)
Theorem short_reserved_read_is_zero_padded
    (len r1 rest : list byte) (ps : packets) (fuel : nat) :
  length len = 4%nat -> Uint32 len = 17 ->
  r1 <> [] -> (length r1 < 10)%nat ->
  parseVideoPacketRequest (S (S fuel))
    (([x26] ++ len ++ [x01] ++ r1) :: (x28 :: rest) :: ps)
  = Some (Ok ([x26] ++ len ++ [x01] ++ (r1 ++ make (10 - length r1)) ++ [x28]),
          rest :: ps).
Proof.
  intros Hl HU Hr1 Hlt.
  cbn [parseVideoPacketRequest scanHeader].
  assert (Hscan : scanStep (make 1) (([x26] ++ len ++ [x01] ++ r1) :: (x28 :: rest) :: ps)
                  = ScanFound [x26] ((len ++ [x01] ++ r1) :: (x28 :: rest) :: ps))
    by reflexivity.
  rewrite Hscan.
  unfold candidate, parseCandidate.
  assert (E1 : readLength ((len ++ [x01] ++ r1) :: (x28 :: rest) :: ps)
               = Next (len, 0, ([x01] ++ r1) :: (x28 :: rest) :: ps)).
  { unfold readLength. rewrite <- Hl.
    rewrite readInto_packet_full by (destruct len; [discriminate | congruence]).
    rewrite HU. reflexivity. }
  rewrite E1. cbn [bind].
  assert (E2 : readVersion (([x01] ++ r1) :: (x28 :: rest) :: ps)
               = Next ([x01], r1 :: (x28 :: rest) :: ps)).
  { unfold readVersion.
    change (make 1) with (make (length [x01])).
    rewrite readInto_packet_full by discriminate. reflexivity. }
  rewrite E2. cbn [bind].
  assert (E3 : readReserved (r1 :: (x28 :: rest) :: ps)
               = Next (r1 ++ make (10 - length r1), [] :: (x28 :: rest) :: ps)).
  { unfold readReserved. rewrite readInto_packet_short by assumption. reflexivity. }
  rewrite E3. cbn [bind].
  reflexivity.
Qed.

Lemma short_reserved_read_is_zero_padded_witness :
  parseVideoPacketRequest 2
    [[x26; x00; x00; x00; x11; x01; x07; x07; x07]; [x28; x09]]
  = Some (Ok ([x26; x00; x00; x00; x11; x01; x07; x07; x07] ++ make 7 ++ [x28]),
          [[x09]]).
Proof.
  apply (short_reserved_read_is_zero_padded
           [x00; x00; x00; x11] [x07; x07; x07] [x09] [] 0).
  - reflexivity.
  - reflexivity.
  - discriminate.
  - simpl. lia.
Defined.
(** ** Any reader *)

(** X5: whatever the reader does (short reads, errors of any kind), a
    buffer that a call returns starts with [0x26] and has at least 17 and
    at most 17 + 10 MiB bytes. *)
Theorem returned_buffer_is_bounded {R : Type} `{Reader R}
    (fuel : nat) (r r' : R) (f : list byte) :
  parseVideoPacketRequest fuel r = Some (Ok f, r') ->
  nth 0 f x00 = x26 /\
  17 <= Z.of_nat (length f) <= 17 + 10 * 1024 * 1024.
Proof.
  revert r. induction fuel as [|fuel IH]; intros r; [discriminate|].
  cbn [parseVideoPacketRequest].
  destruct (scanHeader fuel (make 1) r) as [sc|] eqn:Es; [|discriminate].
  apply scanHeader_result in Es.
  destruct Es as [(r1 & ->)|(proto & r1 & -> & Hp & Hp0)]; [discriminate|].
  rewrite make_length in Hp.
  destruct (candidate proto r1) as [f2 r2|e2 r2|r2] eqn:Ec;
    [|discriminate|apply IH].
  intros [= <- _]. apply candidate_Frame_inv in Ec.
  destruct Ec as (len & dl & version & reserved & data & tail & s1 & s2 & s3 & s4
                  & E1 & E2 & E3 & E4 & E5 & ->).
  apply readLength_Next in E1. destruct E1 as (Hl & _ & _ & Hdl).
  apply readVersion_Next in E2. destruct E2 as (Hv & _).
  apply readReserved_Next in E3. destruct E3 as (Hr & _).
  apply readTail_Next in E5. destruct E5 as (Ht & _).
  apply readData_Next in E4.
  2:{ destruct Hdl as [(_ & ->)|(e & _ & _ & ->)]; [apply wrap64_nonneg | lia]. }
  destruct E4 as (Hmax & Hd).
  destruct (frame_layout proto len version reserved data tail Hp Hl Hv Hr Ht)
    as (F0 & _ & _ & _ & Fn).
  rewrite F0, Fn. split; [exact Hp0|].
  unfold maxDataLength in Hmax. lia.
Qed.

Lemma returned_buffer_is_bounded_witness :
  nth 0 ([x26; x00; x00; x00; x00; x01] ++ make 10 ++ [x00]) x00 = x26 /\
  17 <= Z.of_nat (length ([x26; x00; x00; x00; x00; x01] ++ make 10 ++ [x00]))
     <= 17 + 10 * 1024 * 1024.
Proof.
  apply (returned_buffer_is_bounded 2
           [Bytes [x26]; Fails (ErrOther 1); Bytes ([x01] ++ make 10);
            Fails (ErrOther 2); Bytes [x09]]
           [Bytes [x09]]).
  vm_compute. reflexivity.
Defined.

(** X6: a read of the length field that fails with an error other than
    end-of-stream is not retried and nothing is checked: the payload length
    stays 0, so a frame returned by that pass has no payload and exactly 16
    bytes behind its header byte, and its length field is whatever the
    failed read left in the buffer. *)
Theorem failed_length_read_is_not_checked {R : Type} `{Reader R}
    (proto : list byte) (r r' : R) (e : error) (f : list byte) :
  rr_err (Read r 4) = Some e -> e <> EOF ->
  candidate proto r = Frame f r' ->
  length f = (length proto + 16)%nat /\
  firstn 4 (skipn (length proto) f) = copyInto (make 4) (rr_data (Read r 4)).
Proof.
  intros He Hne Hc. apply candidate_Frame_inv in Hc.
  destruct Hc as (len & dl & version & reserved & data & tail & s1 & s2 & s3 & s4
                  & E1 & E2 & E3 & E4 & E5 & ->).
  apply readLength_Next in E1. destruct E1 as (Hl & _ & Hbuf & Hdl).
  destruct Hdl as [(Hnone & _)|(e' & _ & _ & ->)]; [congruence|].
  apply readVersion_Next in E2. destruct E2 as (Hv & _).
  apply readReserved_Next in E3. destruct E3 as (Hr & _).
  apply readTail_Next in E5. destruct E5 as (Ht & _).
  apply readData_Next in E4; [|lia]. destruct E4 as (_ & Hd).
  split.
  - rewrite !length_app, Hl, Hv, Hr, Ht. lia.
  - rewrite skipn_app, skipn_all, Nat.sub_diag, skipn_O. cbn [app].
    rewrite firstn_app, Hl, Nat.sub_diag, firstn_O, app_nil_r.
    rewrite (firstn_all2 len) by lia. exact Hbuf.
Qed.

(** The length read fails with another error than end-of-stream; the
    frame returned has the length field 0. *)
Lemma failed_length_read_is_not_checked_witness :
  let f := [x26; x00; x00; x00; x00; x01] ++ make 10 ++ [x28] in
  length f = 17%nat /\
  firstn 4 (skipn 1 f) = make 4 /\
  parseVideoPacketRequest 2
    [Bytes [x26]; Fails (ErrOther 1); Bytes ([x01] ++ make 10 ++ [x28])]
  = Some (Ok f, []).
Proof.
  cbv zeta.
  destruct (failed_length_read_is_not_checked [x26]
              [Fails (ErrOther 1); Bytes ([x01] ++ make 10 ++ [x28])] []
              (ErrOther 1)
              ([x26; x00; x00; x00; x00; x01] ++ make 10 ++ [x28]))
    as (Hlen & Hfield).
  - reflexivity.
  - discriminate.
  - vm_compute. reflexivity.
  - split; [exact Hlen|]. split; [exact Hfield | vm_compute; reflexivity].
Defined.
(** * Further properties of the handlers *)

(** ** The discrete handler *)

Lemma handleVideoPacketRequest_step {R : Type} `{Reader R}
    (fuel : nat) (r r1 : R) (req : list byte) :
  parseVideoPacketRequest fuel r = Some (Ok req, r1) ->
  handleVideoPacketRequest (S fuel) r
  = (QueueSend req :: fst (handleVideoPacketRequest fuel r1),
     snd (handleVideoPacketRequest fuel r1)).
Proof.
  intros Hp. cbn [handleVideoPacketRequest]. rewrite Hp.
  destruct (handleVideoPacketRequest fuel r1). reflexivity.
Qed.

(** X7: on the in-memory reader, the discrete handler run on valid frames
    one after the other sends exactly these frames to the queue, in the
    order of the stream and unchanged, and then returns. *)
Theorem request_handler_forwards_frames (frames : list (list byte)) (fuel : nat) :
  Forall validFrame frames ->
  handleVideoPacketRequest (length frames + 3 + fuel) (concat frames)
  = (map QueueSend frames, true).
Proof.
  induction 1 as [|f frames Hf _ IH].
  - reflexivity.
  - cbn [concat length map].
    replace (S (length frames) + 3 + fuel)%nat
      with (S (length frames + 3 + fuel)) by lia.
    rewrite (handleVideoPacketRequest_step _ _ (concat frames) f).
    + rewrite IH. reflexivity.
    + replace (length frames + 3 + fuel)%nat
        with (S (S (length frames + 1 + fuel))) by lia.
      apply parse_valid_frame. exact Hf.
Qed.

Lemma request_handler_forwards_frames_witness :
  handleVideoPacketRequest 5 (concat [payloadFrame; minimalFrame])
  = ([QueueSend payloadFrame; QueueSend minimalFrame], true).
Proof.
  apply (request_handler_forwards_frames [payloadFrame; minimalFrame] 0).
  apply Forall_cons; [apply payloadFrame_valid|].
  apply Forall_cons; [apply minimalFrame_valid | apply Forall_nil].
Defined.

(** X8: with a reader that fails only with end-of-stream, everything the
    discrete handler sends to the queue is a valid frame, however long the
    task has run. *)
Theorem request_handler_sends_valid_frames {R : Type} `{Reader R}
    (fuel : nat) (r : R) :
  EOFOnly R ->
  Forall (fun e => exists req, e = QueueSend req /\ validFrame req)
         (fst (handleVideoPacketRequest fuel r)).
Proof.
  intros Heof. revert r.
  induction fuel as [|fuel IH]; intros r; [constructor|].
  cbn [handleVideoPacketRequest].
  destruct (parseVideoPacketRequest fuel r) as [[[req|e] r1]|] eqn:Ep;
    try constructor.
  specialize (IH r1).
  destruct (handleVideoPacketRequest fuel r1) as [evs returned].
  cbn [fst] in *. constructor; [|exact IH].
  exists req. split; [reflexivity|].
  exact (parse_Ok_valid Heof fuel r req r1 Ep).
Qed.

(** The packet reader, with a byte of garbage in a packet of its own and
    then one frame to a packet: both frames are sent, and both are
    valid. *)
Lemma request_handler_sends_valid_frames_witness :
  fst (handleVideoPacketRequest 6 [[x07]; payloadFrame; minimalFrame])
  = [QueueSend payloadFrame; QueueSend minimalFrame] /\
  Forall (fun e => exists req, e = QueueSend req /\ validFrame req)
         [QueueSend payloadFrame; QueueSend minimalFrame].
Proof.
  assert (E : fst (handleVideoPacketRequest 6 [[x07]; payloadFrame; minimalFrame])
              = [QueueSend payloadFrame; QueueSend minimalFrame])
    by (vm_compute; reflexivity).
  split; [exact E|]. rewrite <- E.
  apply (request_handler_sends_valid_frames 6).
  exact PacketReader_EOFOnly.
Defined.

(** ** Termination of the discrete handler *)

Section HandlerTermination.
Context {R : Type} `{Reader R}.
Variable size : R -> nat.
Hypothesis finite : Finite size.

Lemma scanHeader_smaller (fuel : nat) : forall (proto proto' : list byte) (r r' : R),
  proto <> [] ->
  scanHeader fuel proto r = Some (ScanFound proto' r') ->
  (size r' < size r)%nat.
Proof.
  induction fuel as [|fuel IH]; intros proto proto' r r' Hp; [discriminate|].
  cbn [scanHeader]. pose proof (scanStep_progress size finite proto r Hp) as Hs.
  pose proof (copyInto_length proto (rr_data (Read r (length proto)))) as Hl.
  destruct (scanStep_cases proto r) as [(_ & E)|[(_ & _ & E)|(_ & E)]];
    rewrite E in Hs |- *.
  - discriminate.
  - intros [= _ <-]. exact Hs.
  - intros Hrec. apply IH in Hrec; [lia|].
    intros E0. rewrite E0 in Hl. destruct proto; [congruence | discriminate].
Qed.

(** A call that returns a frame has taken something from the stream. *)
Lemma parse_Ok_smaller (fuel : nat) : forall (r r' : R) (f : list byte),
  parseVideoPacketRequest fuel r = Some (Ok f, r') ->
  (size r' < size r)%nat.
Proof.
  induction fuel as [|fuel IH]; intros r r' f; [discriminate|].
  cbn [parseVideoPacketRequest].
  destruct (scanHeader fuel (make 1) r) as [[r1|proto r1|proto r1]|] eqn:Es;
    try discriminate.
  apply scanHeader_smaller in Es; [|discriminate].
  pose proof (candidate_progress size finite proto r1) as Hc.
  destruct (candidate proto r1) as [f2 r2|e2 r2|r2].
  - intros [= _ <-]. lia.
  - discriminate.
  - intros Hrec. apply IH in Hrec. lia.
Qed.

Lemma handleVideoPacketRequest_returns (fuel : nat) : forall (r : R),
  (size r + 3 <= fuel)%nat ->
  snd (handleVideoPacketRequest fuel r) = true.
Proof.
  induction fuel as [|fuel IH]; intros r Hf; [lia|].
  cbn [handleVideoPacketRequest].
  destruct (parse_total size finite fuel r ltac:(lia)) as (res & r1 & Hp).
  rewrite Hp. destruct res as [req|e]; [|reflexivity].
  apply parse_Ok_smaller in Hp.
  specialize (IH r1 ltac:(lia)).
  destruct (handleVideoPacketRequest fuel r1). exact IH.
Qed.
End HandlerTermination.

(** X9: on a finite stream whose reader reports no error but the end of
    the stream, the discrete handler's task returns: with three more units
    of fuel than the size of the stream it has ended. *)
Theorem request_handler_terminates {R : Type} `{Reader R}
    (size : R -> nat) (fuel : nat) (r : R) :
  Finite size ->
  (size r + 3 <= fuel)%nat ->
  snd (handleVideoPacketRequest fuel r) = true.
Proof.
  intros Hfin Hf. exact (handleVideoPacketRequest_returns size Hfin fuel r Hf).
Qed.

Lemma request_handler_terminates_witness :
  snd (handleVideoPacketRequest 50
         [[x07; x26; x00]; badTailFrame ++ firstn 7 payloadFrame;
          skipn 7 payloadFrame ++ [x26]]) = true.
Proof.
  apply (request_handler_terminates (fun ps : packets => length (concat ps)) 50).
  - exact PacketReader_Finite.
  - simpl. lia.
Defined.
(** ** [io.ReadFull] on any reader *)

Lemma copyInto_fits (buf d : list byte) :
  (length d <= length buf)%nat ->
  copyInto buf d = d ++ skipn (length d) buf.
Proof.
  intros Hd. unfold copyInto. rewrite firstn_all2 by exact Hd. reflexivity.
Qed.

Lemma readAtLeast_inv {R : Type} `{Reader R} (fuel : nat) :
  forall (r r' : R) (buf buf' : list byte) (n n' : nat) (err : option error),
    readAtLeast fuel r buf n = Some (n', err, buf', r') ->
    (n <= length buf)%nat ->
    length buf' = length buf /\
    (n <= n' <= length buf)%nat /\
    skipn n' buf' = skipn n' buf /\
    (err = None -> n' = length buf).
Proof.
  induction fuel as [|fuel IH]; intros r r' buf buf' n n' err; [discriminate|].
  cbn [readAtLeast]. intros Hr Hn.
  destruct (n <? length buf)%nat eqn:Hlt.
  2:{ apply Nat.ltb_ge in Hlt. injection Hr as <- <- <- <-.
      repeat split; try lia. }
  apply Nat.ltb_lt in Hlt.
  set (d := firstn (length buf - n) (rr_data (Read r (length buf - n)))) in *.
  assert (Hd : (length d <= length buf - n)%nat)
    by (subst d; rewrite length_firstn; lia).
  set (buf1 := firstn n buf ++ copyInto (skipn n buf) d) in *.
  assert (Hb1 : length buf1 = length buf).
  { subst buf1. rewrite length_app, length_firstn, copyInto_length, length_skipn. lia. }
  assert (Hs1 : skipn (n + length d) buf1 = skipn (n + length d) buf).
  { subst buf1. rewrite copyInto_fits by (rewrite length_skipn; exact Hd).
    rewrite skipn_app, length_firstn.
    replace (Nat.min n (length buf)) with n by lia.
    rewrite (skipn_all2 (firstn n buf)) by (rewrite length_firstn; lia).
    replace (n + length d - n)%nat with (length d) by lia.
    cbn [app]. rewrite skipn_app, skipn_all, Nat.sub_diag, skipn_O. cbn [app].
    rewrite skipn_skipn. f_equal. lia. }
  destruct (rr_err (Read r (length buf - n))) as [e|].
  - injection Hr as <- <- <- <-. repeat split; try lia; try assumption.
    discriminate.
  - apply IH in Hr; [|lia]. destruct Hr as (Hl & Hn' & Hs & He).
    repeat split; try lia.
    + rewrite Hs. remember (n + length d)%nat as k eqn:Hk.
      replace n' with ((n' - k) + k)%nat by lia.
      rewrite <- (skipn_skipn (n' - k) k buf1).
      rewrite <- (skipn_skipn (n' - k) k buf).
      rewrite Hs1. reflexivity.
    + intros E. rewrite (He E). exact Hb1.
Qed.

Lemma ReadFull_inv {R : Type} `{Reader R}
    (fuel : nat) (r r' : R) (buf buf' : list byte) (n : nat) (err : option error) :
  ReadFull fuel r buf = Some (n, err, buf', r') ->
  length buf' = length buf /\
  (n <= length buf)%nat /\
  (err = None <-> n = length buf) /\
  skipn n buf' = skipn n buf /\
  (err = Some EOF -> n = 0%nat).
Proof.
  unfold ReadFull.
  destruct (readAtLeast fuel r buf 0) as [[[[n0 err0] buf0] r0]|] eqn:E;
    [|discriminate].
  apply readAtLeast_inv in E; [|lia].
  destruct E as (Hl & Hn & Hs & He).
  intros [= <- <- <- <-]. rewrite Hl.
  destruct (length buf <=? n0)%nat eqn:Hle.
  - apply Nat.leb_le in Hle.
    repeat split; try lia; try assumption; try discriminate.
  - apply Nat.leb_gt in Hle.
    destruct err0 as [e|]; [|specialize (He eq_refl); lia].
    repeat split; try lia; try assumption.
    + destruct ((0 <? n0)%nat && isEOF e); discriminate.
    + destruct (0 <? n0)%nat eqn:H0; cbn [andb].
      * destruct (isEOF e) eqn:Ee; [discriminate|].
        intros [= ->]. discriminate.
      * intros _. apply Nat.ltb_ge in H0. lia.
Qed.

(** X10: [io.ReadFull] as the raw handler uses it, for any reader: the
    buffer keeps its length; the count is at most that length, and there
    is no error exactly when the buffer was filled; the bytes of the buffer
    behind the count are what they were before the call; and end-of-stream
    is reported as [io.EOF] only when nothing was read. *)
Theorem ReadFull_contract {R : Type} `{Reader R}
    (fuel : nat) (r r' : R) (buf buf' : list byte) (n : nat) (err : option error) :
  ReadFull fuel r buf = Some (n, err, buf', r') ->
  length buf' = length buf /\
  (n <= length buf)%nat /\
  (err = None <-> n = length buf) /\
  skipn n buf' = skipn n buf /\
  (err = Some EOF -> n = 0%nat).
Proof.
  intros Hr. exact (ReadFull_inv fuel r r' buf buf' n err Hr).
Qed.

Lemma ReadFull_contract_witness :
  length ([x41] ++ make 4095) = length (make VideoPacketMaxBufferSize) /\
  (1 <= length (make VideoPacketMaxBufferSize))%nat /\
  (Some ErrUnexpectedEOF = None <-> 1%nat = length (make VideoPacketMaxBufferSize)) /\
  skipn 1 ([x41] ++ make 4095) = skipn 1 (make VideoPacketMaxBufferSize) /\
  (Some ErrUnexpectedEOF = Some EOF -> 1%nat = 0%nat).
Proof.
  apply (ReadFull_contract 3 [x41] [] (make VideoPacketMaxBufferSize)).
  vm_compute. reflexivity.
Defined.

(** ** The raw handler *)

Section RawFacts.
Context {R : Type} `{Reader R}.

Lemma rawChunks_buffers (fuel : nat) : forall (r : R),
  Forall (fun e => exists buf, e = SenderSend buf /\
                               length buf = VideoPacketMaxBufferSize)
         (fst (rawChunks fuel r)).
Proof.
  induction fuel as [|fuel IH]; intros r; cbn [rawChunks]; [constructor|].
  destruct (ReadFull fuel r (make VideoPacketMaxBufferSize))
    as [[[[n err] buf] r1]|] eqn:E; [|constructor].
  apply ReadFull_inv in E. destruct E as (Hl & _).
  rewrite make_length in Hl.
  destruct err as [e|]; cbn [fst].
  - destruct (0 <? n)%nat; repeat constructor. eauto.
  - specialize (IH r1). destruct (rawChunks fuel r1) as [evs r2].
    constructor; [eauto | exact IH].
Qed.

Lemma rawLoop_sends (fuel : nat) : forall (r : R),
  EOFOnly R ->
  Forall (fun e => exists buf, e = SenderSend buf /\
                     (validFrame buf \/ length buf = VideoPacketMaxBufferSize))
         (fst (rawLoop fuel r)) /\
  match fst (rawLoop fuel r) with
  | [] => True
  | e :: _ => exists req, e = SenderSend req /\ validFrame req
  end.
Proof.
  intros r Heof. revert r.
  induction fuel as [|fuel IH]; intros r; cbn [rawLoop];
    [split; [constructor | exact I]|].
  destruct (parseVideoPacketRequest fuel r) as [[[req|e] r1]|] eqn:Ep;
    try (split; [constructor | exact I]).
  pose proof (parse_Ok_valid Heof fuel r req r1 Ep) as Hv.
  pose proof (rawChunks_buffers fuel r1) as Hc.
  assert (Hc' : Forall (fun e => exists buf, e = SenderSend buf /\
                     (validFrame buf \/ length buf = VideoPacketMaxBufferSize))
                  (fst (rawChunks fuel r1))).
  { eapply Forall_impl; [|exact Hc]. intros e (buf & -> & Hl). eauto. }
  destruct (rawChunks fuel r1) as [chunks [r2|]]; cbn [fst] in *.
  - destruct (IH r2) as (IHall & _).
    destruct (rawLoop fuel r2) as [evs returned]. cbn [fst] in *.
    split; [|eauto].
    constructor; [eauto|]. apply Forall_app. split; assumption.
  - split; [|eauto]. constructor; [eauto | exact Hc'].
Qed.

Lemma rawLoop_only_sends (fuel : nat) : forall (r : R),
  Forall (fun e => exists buf, e = SenderSend buf) (fst (rawLoop fuel r)).
Proof.
  induction fuel as [|fuel IH]; intros r; cbn [rawLoop]; [constructor|].
  destruct (parseVideoPacketRequest fuel r) as [[[req|e] r1]|];
    try constructor.
  pose proof (rawChunks_buffers fuel r1) as Hc.
  assert (Hc' : Forall (fun e => exists buf, e = SenderSend buf)
                  (fst (rawChunks fuel r1))).
  { eapply Forall_impl; [|exact Hc]. intros e (buf & -> & _). eauto. }
  destruct (rawChunks fuel r1) as [chunks [r2|]]; cbn [fst] in *.
  - specialize (IH r2). destruct (rawLoop fuel r2) as [evs returned].
    cbn [fst] in *. constructor; [eauto|]. apply Forall_app. split; assumption.
  - constructor; [eauto | exact Hc'].
Qed.
End RawFacts.

(** X11: the trace of the raw handler, for any reader.  The sender is
    asked for first, with one more than the cloning factor and the remote
    address; when that fails nothing is read or sent and the task returns;
    otherwise everything that follows is a send on the sender's data
    channel, and the cancellation comes last, exactly when the task has
    returned. *)
Theorem raw_handler_trace_shape {R : Type} `{Reader R}
    (NewLongConnSender : Z -> string -> option error)
    (cfg : Config) (fuel : nat) (r : R) :
  let conns := wrapInt (Clone cfg + 1) in
  match NewLongConnSender conns (RemoteAddr cfg) with
  | Some _ =>
      handleVideoPacketRaw NewLongConnSender cfg fuel r
      = ([NewSender conns (RemoteAddr cfg); Cancel], true)
  | None =>
      exists (body : list event) (returned : bool),
        handleVideoPacketRaw NewLongConnSender cfg fuel r
        = (NewSender conns (RemoteAddr cfg) :: body
             ++ (if returned then [Cancel] else []), returned) /\
        Forall (fun e => exists buf, e = SenderSend buf) body
  end.
Proof.
  cbv zeta. unfold handleVideoPacketRaw.
  destruct (NewLongConnSender _ _); [reflexivity|].
  pose proof (rawLoop_only_sends fuel r) as Hl.
  destruct (rawLoop fuel r) as [evs returned]. cbn [fst] in Hl.
  exists evs, returned. split; [reflexivity | exact Hl].
Qed.

(** X12: with a reader that fails only with end-of-stream, every buffer
    the raw handler sends is a valid frame or has exactly 4096 bytes, and
    the first buffer it sends is a valid frame. *)
Theorem raw_handler_sends_frames_or_buffers {R : Type} `{Reader R}
    (NewLongConnSender : Z -> string -> option error)
    (cfg : Config) (fuel : nat) (r : R) :
  EOFOnly R ->
  let trace := fst (handleVideoPacketRaw NewLongConnSender cfg fuel r) in
  (forall buf, In (SenderSend buf) trace ->
     validFrame buf \/ length buf = VideoPacketMaxBufferSize) /\
  (forall conns addr buf rest,
     trace = NewSender conns addr :: SenderSend buf :: rest -> validFrame buf).
Proof.
  intros Heof. cbv zeta. unfold handleVideoPacketRaw.
  destruct (NewLongConnSender _ _).
  { cbn [fst]. split.
    - intros buf [E|[E|[]]]; discriminate E.
    - intros conns addr buf rest E. discriminate E. }
  destruct (rawLoop_sends fuel r Heof) as (Hall & Hhead).
  destruct (rawLoop fuel r) as [evs returned]. cbn [fst] in *.
  split.
  - intros buf [E|Hin]; [discriminate E|].
    apply in_app_or in Hin. destruct Hin as [Hin|Hin].
    + rewrite Forall_forall in Hall. destruct (Hall _ Hin) as (b & [= ->] & Hb).
      exact Hb.
    + destruct returned; [destruct Hin as [E|[]]; discriminate E | destruct Hin].
  - intros conns addr buf rest E. injection E as _ _ E.
    destruct evs as [|e evs].
    + destruct returned; discriminate E.
    + injection E as -> _. destruct Hhead as (req & [= ->] & Hv). exact Hv.
Qed.

Lemma raw_handler_sends_frames_or_buffers_witness :
  let trace := fst (handleVideoPacketRaw (fun _ _ => None)
                      (mkConfig 0 0 "10.0.0.1:80") 9
                      [payloadFrame ++ [x41]; [x07]]) in
  (forall buf, In (SenderSend buf) trace ->
     validFrame buf \/ length buf = VideoPacketMaxBufferSize) /\
  (forall conns addr buf rest,
     trace = NewSender conns addr :: SenderSend buf :: rest -> validFrame buf).
Proof.
  apply (raw_handler_sends_frames_or_buffers (fun _ _ => None)
           (mkConfig 0 0 "10.0.0.1:80") 9 [payloadFrame ++ [x41]; [x07]]).
  exact PacketReader_EOFOnly.
Defined.
(** X13: the raw handler on the in-memory reader, for a stream that is a
    valid frame, then any number of whole 4096-byte chunks, then a rest of
    fewer than 4096 bytes.  The frame is sent first, then every whole chunk
    as it is and in order; a non-empty rest is sent as a 4096-byte buffer,
    the rest followed by zeros; the next search for a frame meets the end
    of the stream and the task returns, cancelling the sender. *)
Theorem raw_handler_trace_on_bytes
    (NewLongConnSender : Z -> string -> option error) (cfg : Config)
    (f : list byte) (chunks : list (list byte)) (tail : list byte) (fuel : nat) :
  NewLongConnSender (wrapInt (Clone cfg + 1)) (RemoteAddr cfg) = None ->
  validFrame f ->
  Forall (fun c => length c = VideoPacketMaxBufferSize) chunks ->
  (length tail < VideoPacketMaxBufferSize)%nat ->
  handleVideoPacketRaw NewLongConnSender cfg (length chunks + 4 + fuel)
    (f ++ concat chunks ++ tail)
  = (NewSender (wrapInt (Clone cfg + 1)) (RemoteAddr cfg)
       :: SenderSend f
       :: (map SenderSend chunks ++
           match tail with
           | [] => []
           | _ => [SenderSend (tail ++ make (VideoPacketMaxBufferSize - length tail))]
           end)
       ++ [Cancel],
     true).
Proof.
  intros Hnew Hf Hc Ht. unfold handleVideoPacketRaw. rewrite Hnew.
  replace (length chunks + 4 + fuel)%nat
    with (S (length chunks + 3 + fuel)) by lia.
  cbn [rawLoop].
  replace (length chunks + 3 + fuel)%nat
    with (S (S (length chunks + 1 + fuel))) at 1 by lia.
  rewrite parse_valid_frame by exact Hf.
  rewrite rawChunks_bytes by assumption.
  replace (length chunks + 3 + fuel)%nat
    with (S (S (S (length chunks + fuel)))) by lia.
  cbn [rawLoop]. rewrite parse_nil. rewrite app_nil_r. reflexivity.
Qed.

Lemma raw_handler_trace_on_bytes_witness :
  handleVideoPacketRaw (fun _ _ => None) (mkConfig 0 2 "10.0.0.1:80") 5
    (payloadFrame ++ concat [repeat x41 4096] ++ [x07; x26])
  = ([NewSender 3 "10.0.0.1:80";
      SenderSend payloadFrame;
      SenderSend (repeat x41 4096);
      SenderSend ([x07; x26] ++ make 4094);
      Cancel], true).
Proof.
  apply (raw_handler_trace_on_bytes (fun _ _ => None)
           (mkConfig 0 2 "10.0.0.1:80") payloadFrame [repeat x41 4096]
           [x07; x26] 0).
  - reflexivity.
  - apply payloadFrame_valid.
  - apply Forall_cons; [apply repeat_length | apply Forall_nil].
  - unfold VideoPacketMaxBufferSize. simpl. lia.
Defined.

(** ** Termination of the raw handler *)

Section RawTermination.
Context {R : Type} `{Reader R}.
Variable size : R -> nat.
Hypothesis finite : Finite size.
Hypothesis quiet : QuietEOF size.

Lemma readAtLeast_total (fuel : nat) : forall (r : R) (buf : list byte) (n : nat),
  (size r < fuel)%nat ->
  exists n' err buf' r',
    readAtLeast fuel r buf n = Some (n', err, buf', r') /\
    (size r' <= size r)%nat /\
    (err = None \/ (n' < length buf)%nat) /\
    ((n < length buf)%nat -> err = None -> (size r' < size r)%nat).
Proof.
  induction fuel as [|fuel IH]; intros r buf n Hf; [lia|].
  cbn [readAtLeast].
  destruct (n <? length buf)%nat eqn:Hlt.
  2:{ apply Nat.ltb_ge in Hlt. do 4 eexists. split; [reflexivity|].
      split; [lia|]. split; [left; reflexivity | intros; lia]. }
  apply Nat.ltb_lt in Hlt.
  destruct (finite r (length buf - n)%nat ltac:(lia)) as [E|(E & Hsm)]; rewrite E.
  - destruct (quiet r (length buf - n)%nat E) as (Hd & Hle).
    do 4 eexists. split; [reflexivity|]. rewrite Hd, firstn_nil. cbn [length].
    split; [exact Hle|]. split; [right; lia | discriminate].
  - match goal with
    | |- context [readAtLeast fuel ?r1 ?b1 ?n1] =>
        assert (Hb1 : length b1 = length buf)
          by (rewrite length_app, length_firstn, copyInto_length, length_skipn; lia);
        destruct (IH r1 b1 n1 ltac:(lia))
          as (n' & err & buf' & r' & Er & Hle & Hor & _)
    end.
    exists n', err, buf', r'. split; [exact Er|].
    rewrite Hb1 in Hor. split; [lia|]. split; [exact Hor | intros; lia].
Qed.

Lemma rawChunks_total (fuel : nat) : forall (r : R),
  (size r + 2 <= fuel)%nat ->
  exists r', snd (rawChunks fuel r) = Some r' /\ (size r' <= size r)%nat.
Proof.
  induction fuel as [|fuel IH]; intros r Hf; [lia|].
  cbn [rawChunks]. unfold ReadFull.
  destruct (readAtLeast_total fuel r (make VideoPacketMaxBufferSize) 0 ltac:(lia))
    as (n & err & buf & r1 & Er & Hle & Hor & Hlt).
  rewrite Er.
  pose proof Er as Hinv. apply readAtLeast_inv in Hinv; [|lia].
  destruct Hinv as (Hl & Hn & _ & Hfull).
  rewrite make_length in Hor, Hlt.
  destruct (length buf <=? n)%nat eqn:Hb.
  - apply Nat.leb_le in Hb. rewrite Hl, make_length in Hb.
    destruct Hor as [->|Hor]; [|lia].
    assert (Hsm : (size r1 < size r)%nat)
      by (apply Hlt; [unfold VideoPacketMaxBufferSize; lia | reflexivity]).
    destruct (IH r1 ltac:(lia)) as (r' & E' & Hle').
    destruct (rawChunks fuel r1) as [evs o]. cbn [snd] in *.
    exists r'. split; [exact E' | lia].
  - apply Nat.leb_gt in Hb.
    destruct err as [e|]; [|specialize (Hfull eq_refl); lia].
    destruct ((0 <? n)%nat && isEOF e); cbn [snd]; eauto.
Qed.

Lemma rawLoop_returns (fuel : nat) : forall (r : R),
  (size r + 3 <= fuel)%nat -> snd (rawLoop fuel r) = true.
Proof.
  induction fuel as [|fuel IH]; intros r Hf; [lia|].
  cbn [rawLoop].
  destruct (parse_total size finite fuel r ltac:(lia)) as (res & r1 & Hp).
  rewrite Hp. destruct res as [req|e]; [|reflexivity].
  apply (parse_Ok_smaller size finite) in Hp.
  destruct (rawChunks_total fuel r1 ltac:(lia)) as (r2 & E2 & Hle).
  destruct (rawChunks fuel r1) as [chunks o]. cbn [snd] in E2. subst o.
  specialize (IH r2 ltac:(lia)).
  destruct (rawLoop fuel r2). exact IH.
Qed.
End RawTermination.

Lemma BytesReader_QuietEOF : QuietEOF (@length byte).
Proof.
  intros s k. destruct s as [|b s]; [|discriminate].
  intros _. split; [reflexivity | apply Nat.le_refl].
Qed.

Lemma PacketReader_QuietEOF : QuietEOF (fun ps : packets => length (concat ps)).
Proof.
  intros ps k. cbn [Read PacketReader].
  destruct (stripEmpty ps); [|discriminate].
  intros _. split; [reflexivity | apply Nat.le_0_l].
Qed.

(** X14: on a finite stream whose reader reports no error but the end of
    the stream, and copies nothing when it reports it, the raw handler's
    task returns, whether or not the sender could be created: every failed
    chunk read leads back to the search for a frame, which ends at the end
    of the stream. *)
Theorem raw_handler_terminates {R : Type} `{Reader R}
    (NewLongConnSender : Z -> string -> option error) (cfg : Config)
    (size : R -> nat) (fuel : nat) (r : R) :
  Finite size -> QuietEOF size ->
  (size r + 3 <= fuel)%nat ->
  snd (handleVideoPacketRaw NewLongConnSender cfg fuel r) = true.
Proof.
  intros Hfin Hq Hf. unfold handleVideoPacketRaw.
  destruct (NewLongConnSender _ _); [reflexivity|].
  pose proof (rawLoop_returns size Hfin Hq fuel r Hf) as Hr.
  destruct (rawLoop fuel r). exact Hr.
Qed.

Lemma raw_handler_terminates_witness :
  snd (handleVideoPacketRaw (fun _ _ => None) (mkConfig 0 0 "10.0.0.1:80") 60
         [[x07; x26; x00]; payloadFrame ++ firstn 7 minimalFrame;
          skipn 7 minimalFrame ++ [x26]]) = true.
Proof.
  apply (raw_handler_terminates (fun _ _ => None) (mkConfig 0 0 "10.0.0.1:80")
           (fun ps : packets => length (concat ps)) 60).
  - exact PacketReader_Finite.
  - exact PacketReader_QuietEOF.
  - simpl. lia.
Defined.
(** ** The length field *)

Lemma lor_shifted (a b k : Z) :
  0 <= k -> 0 <= a < 2 ^ k -> 0 <= b ->
  Z.lor a (Z.shiftl b k) = a + b * 2 ^ k.
Proof.
  intros Hk Ha Hb. rewrite Z.shiftl_mul_pow2 by exact Hk.
  assert (Hland : Z.land a (b * 2 ^ k) = 0).
  { apply Z.bits_inj'. intros n Hn. rewrite Z.land_spec, Z.bits_0.
    destruct (Z_lt_ge_dec n k) as [Hlt|Hge].
    - rewrite (Z.mul_pow2_bits_low b k n) by lia. apply andb_false_r.
    - destruct (Z.eq_dec a 0) as [->|Hne]; [rewrite Z.bits_0; reflexivity|].
      rewrite (Z.bits_above_log2 a n); [reflexivity | lia|].
      apply Z.lt_le_trans with k; [|lia].
      apply Z.log2_lt_pow2; lia. }
  rewrite <- Z.lxor_lor by exact Hland.
  symmetry. apply Z.add_nocarry_lxor. exact Hland.
Qed.

(** X15: the length field is read big-endian: its value is
    [b0 * 2^24 + b1 * 2^16 + b2 * 2^8 + b3] for the four bytes in stream
    order, so it is at least 0 and less than [2^32]; no shift wraps. *)
Theorem Uint32_is_big_endian (b0 b1 b2 b3 : byte) :
  Uint32 [b0; b1; b2; b3]
  = u8 b0 * 2 ^ 24 + u8 b1 * 2 ^ 16 + u8 b2 * 2 ^ 8 + u8 b3 /\
  0 <= Uint32 [b0; b1; b2; b3] < 2 ^ 32.
Proof.
  split; [|apply Uint32_range].
  unfold Uint32. cbn [nth].
  pose proof (u8_range b0) as H0. pose proof (u8_range b1) as H1.
  pose proof (u8_range b2) as H2. pose proof (u8_range b3) as H3.
  unfold wrap32.
  rewrite (Z.mod_small (Z.shiftl (u8 b2) 8))
    by (rewrite Z.shiftl_mul_pow2 by lia; lia).
  rewrite (Z.mod_small (Z.shiftl (u8 b1) 16))
    by (rewrite Z.shiftl_mul_pow2 by lia; lia).
  rewrite (Z.mod_small (Z.shiftl (u8 b0) 24))
    by (rewrite Z.shiftl_mul_pow2 by lia; lia).
  rewrite (lor_shifted (u8 b3) (u8 b2) 8) by lia.
  rewrite (lor_shifted _ (u8 b1) 16) by lia.
  rewrite (lor_shifted _ (u8 b0) 24) by lia.
  lia.
Qed.

(** * The dispatcher *)

Section DispatchFacts.
Context {R : Type} `{Reader R}.

(** Every frame that successive calls of the parser return is sent to the
    queue by the discrete handler, in that order, once it has run long
    enough to make these calls. *)
Lemma handleVideoPacketRequest_complete (fs : list (list byte)) :
  forall (fuel0 fuel : nat) (s r' : R),
    parseCalls fuel0 (length fs) s = Some (map Ok fs, r') ->
    (fuel0 + length fs <= fuel)%nat ->
    exists rest, fst (handleVideoPacketRequest fuel s) = map QueueSend fs ++ rest.
Proof.
  induction fs as [|f fs IH]; intros fuel0 fuel s r' Hc Hf.
  - exists (fst (handleVideoPacketRequest fuel s)). reflexivity.
  - cbn [length map parseCalls] in Hc.
    destruct (parseVideoPacketRequest fuel0 s) as [[res s1]|] eqn:Ep; [|discriminate].
    destruct (parseCalls fuel0 (length fs) s1) as [[rs s2]|] eqn:Ec; [|discriminate].
    injection Hc as -> -> ->.
    destruct fuel as [|fuel]; [cbn [length] in Hf; lia|].
    cbn [length] in Hf.
    rewrite (handleVideoPacketRequest_step fuel s s1 f)
      by (apply (parse_mono fuel0); [exact Ep | lia]).
    destruct (IH fuel0 fuel s1 r' Ec ltac:(lia)) as (rest & Hrest).
    exists rest. cbn [fst map app]. rewrite Hrest. reflexivity.
Qed.

(** The raw handler's loop sends the frame that the first call of the
    parser returns, and behind it what the chunk loop sends. *)
Lemma rawLoop_anchor (fuel0 fuel : nat) (s s1 : R) (f : list byte) :
  parseVideoPacketRequest fuel0 s = Some (Ok f, s1) ->
  (fuel0 < fuel)%nat ->
  exists rest,
    fst (rawLoop fuel s)
    = SenderSend f :: fst (rawChunks (fuel - 1) s1) ++ rest.
Proof.
  intros Hp Hf. destruct fuel as [|fuel]; [lia|].
  cbn [rawLoop]. replace (S fuel - 1)%nat with fuel by lia.
  rewrite (parse_mono fuel0 fuel s _ Hp) by lia.
  destruct (rawChunks fuel s1) as [chunks [s2|]]; cbn [fst].
  - destruct (rawLoop fuel s2) as [evs returned]. exists evs. reflexivity.
  - exists []. rewrite app_nil_r. reflexivity.
Qed.
End DispatchFacts.

(** C8: the task [New] starts for a stream depends on the mode alone.

    In raw mode it is the raw handler.  Its first event is the request for
    the per-connection sender, with one more than the cloning factor and
    the remote address.  When that request fails the task only cancels and
    returns; otherwise every event that follows is a send on the sender's
    data channel, and the cancellation comes last, exactly when the task
    has returned; the frame that the first call of the parser returns is
    the first buffer sent, followed by what the chunk loop sends.  No event
    of the task is a send to the shared queue.

    In any other mode it is the discrete handler.  Its trace is exactly the
    queue sends of frames that successive calls of the parser return, in
    that order, so no sender is created or used; when the task has
    returned, the call after the last frame sent is one that failed; and
    every frame that successive calls of the parser return is sent, once
    the task has run long enough to make these calls. *)
Theorem dispatch_by_mode {R : Type} `{Reader R}
    (ModeRaw : Z) (NewLongConnSender : Z -> string -> option error)
    (cfg : Config) (videoPacketStreamCount : Z) (s : R) (fuel : nat) :
  let t := snd (New ModeRaw cfg videoPacketStreamCount s) in
  let conns := wrapInt (Clone cfg + 1) in
  let run := runTask NewLongConnSender cfg fuel t in
  (Mode cfg = ModeRaw ->
   t = GoRaw s /\
   Forall (fun e => isSenderEvent e = true) (fst run) /\
   match NewLongConnSender conns (RemoteAddr cfg) with
   | Some _ => run = ([NewSender conns (RemoteAddr cfg); Cancel], true)
   | None =>
       exists (body : list event) (returned : bool),
         run = (NewSender conns (RemoteAddr cfg) :: body
                  ++ (if returned then [Cancel] else []), returned) /\
         Forall (fun e => exists buf, e = SenderSend buf) body /\
         (forall fuel0 f s1,
            parseVideoPacketRequest fuel0 s = Some (Ok f, s1) ->
            (fuel0 < fuel)%nat ->
            exists rest,
              body = SenderSend f :: fst (rawChunks (fuel - 1) s1) ++ rest)
   end) /\
  (Mode cfg <> ModeRaw ->
   t = GoRequest s /\
   (exists frames r',
      parseCalls fuel (length frames) s = Some (map Ok frames, r') /\
      fst run = map QueueSend frames /\
      (snd run = true ->
       exists e r'', parseVideoPacketRequest fuel r' = Some (Err e, r''))) /\
   (forall fuel0 fs r',
      parseCalls fuel0 (length fs) s = Some (map Ok fs, r') ->
      (fuel0 + length fs <= fuel)%nat ->
      exists rest, fst run = map QueueSend fs ++ rest)).
Proof.
  cbv zeta. unfold New. split; intros Hm.
  - apply Z.eqb_eq in Hm. rewrite Hm. cbn [snd runTask].
    split; [reflexivity|].
    split; [apply handleVideoPacketRaw_sender|].
    unfold handleVideoPacketRaw.
    destruct (NewLongConnSender _ _); [reflexivity|].
    pose proof (rawLoop_only_sends fuel s) as Hl.
    pose proof (rawLoop_anchor) as Ha.
    destruct (rawLoop fuel s) as [evs returned] eqn:El. cbn [fst] in Hl.
    exists evs, returned. split; [reflexivity|]. split; [exact Hl|].
    intros fuel0 f s1 Hp Hf.
    destruct (Ha fuel0 fuel s s1 f Hp Hf) as (rest & Hrest).
    rewrite El in Hrest. cbn [fst] in Hrest. eauto.
  - apply Z.eqb_neq in Hm. rewrite Hm. cbn [snd runTask].
    split; [reflexivity|]. split.
    + destruct (handleVideoPacketRequest_trace fuel s)
        as (frames & r' & Hc & Ht & Hd).
      exists frames, r'. repeat split; assumption.
    + intros fuel0 fs r'. apply handleVideoPacketRequest_complete.
Qed.

(** In discrete mode, two frames one after the other are both sent to the
    queue; in raw mode, the sender is asked for, the first frame is sent to
    it, and the rest of the stream follows as one padded chunk. *)
Lemma dispatch_by_mode_witness :
  (exists rest,
     fst (runTask (fun _ _ => None) (mkConfig 1 0 "10.0.0.1:80") 5
            (snd (New 0 (mkConfig 1 0 "10.0.0.1:80") 0
                    (payloadFrame ++ minimalFrame))))
     = map QueueSend [payloadFrame; minimalFrame] ++ rest) /\
  (exists (body : list event) (returned : bool),
     runTask (fun _ _ => None) (mkConfig 0 0 "10.0.0.1:80") 5
       (snd (New 0 (mkConfig 0 0 "10.0.0.1:80") 0 (payloadFrame ++ minimalFrame)))
     = (NewSender 1 "10.0.0.1:80" :: body
          ++ (if returned then [Cancel] else []), returned) /\
     exists rest,
       body = SenderSend payloadFrame :: fst (rawChunks 4 minimalFrame) ++ rest).
Proof.
  split.
  - destruct (dispatch_by_mode 0 (fun _ _ => None) (mkConfig 1 0 "10.0.0.1:80") 0
                (payloadFrame ++ minimalFrame) 5) as (_ & Hreq).
    destruct Hreq as (_ & _ & Hall); [simpl; discriminate|].
    apply (Hall 2%nat [payloadFrame; minimalFrame] []).
    + vm_compute. reflexivity.
    + simpl. lia.
  - destruct (dispatch_by_mode 0 (fun _ _ => None) (mkConfig 0 0 "10.0.0.1:80") 0
                (payloadFrame ++ minimalFrame) 5) as (Hraw & _).
    destruct Hraw as (_ & _ & body & returned & Hrun & _ & Hanchor); [reflexivity|].
    exists body, returned. split; [exact Hrun|].
    apply (Hanchor 2%nat payloadFrame minimalFrame); [vm_compute; reflexivity | lia].
Defined.
